(** * regraf-bots/i18n: renderer, resolver and preload, verified

    A shallow embedding of [src/lib/Language.ts] (class [Language]) and of the
    controller ([LanguageController]: [preloadLanguages], [middleware]),
    followed by the properties the specification states about them.

    Conventions of the embedding:
    - a JavaScript string is a [string] (a sequence of code units);
    - a JavaScript number is a [number]: the integer-valued doubles carry a
      [Z], the other finite doubles a rational, plus the infinities and NaN;
    - the own properties of a [Record<string, string>] are a
      [gmap string string]; what it inherits from Object.prototype is read
      through [lookup];
    - a call that may raise returns a [completion];
    - the placeholders record that [t] writes to lives at a location of a
      heap, a [gmap loc placeholders];
    - the store and the controller are passed as state; awaiting is
      sequencing, and the calls to [debug] are left out. *)

From Stdlib Require Import ZArith QArith Lia List Ascii String Bool DecimalString.
From stdpp Require Import base option gmap strings list fin_maps.

Local Open Scope Z_scope.

(** ** JavaScript numbers *)

Module JS.

(** [Int z] is the double whose value is the integer [z] (both zeros are
    [Int 0]: they are [===] and print alike); [Frac q] is a finite double
    with a fractional part, so [q] is not an integer. *)
Inductive number : Type :=
  | NaN
  | Infinity (negative : bool)
  | Int (z : Z)
  | Frac (q : Q).

(** [a === b] on numbers. NaN is equal to nothing, itself included. *)
Definition strict_eq (a b : number) : bool :=
  match a, b with
  | Int x, Int y => Z.eqb x y
  | Infinity s, Infinity t => Bool.eqb s t
  | Frac p, Frac q => Qeq_bool p q
  | _, _ => false
  end.

(** [a % d] for a non-zero integer literal [d]: the remainder of the
    truncated division, with the sign of the dividend. *)
Definition rem (a : number) (d : Z) : number :=
  match a with
  | NaN | Infinity _ => NaN
  | Int z => Int (Z.rem z d)
  | Frac q => Frac (q - inject_Z (d * Z.quot (Qnum q) (Zpos (Qden q) * d)))
  end.

Definition isNaN (a : number) : bool :=
  match a with NaN => true | _ => false end.

Definition isFinite (a : number) : bool :=
  match a with Int _ | Frac _ => true | _ => false end.

(** [switch (x) { case c1: return b1; ... default: return d }]: the cases are
    tried in order with [===]. *)
Fixpoint switch {A : Type} (x : number) (cases : list (number * A)) (default : A) : A :=
  match cases with
  | [] => default
  | (c, body) :: rest => if strict_eq x c then body else switch x rest default
  end.

(** The result of a call: a value, or an exception. *)
Inductive error : Type := TypeError | SyntaxError | SystemError.

Inductive completion (A : Type) : Type :=
  | Normal (a : A)
  | Throw (e : error).
Arguments Normal {A} & a.
Arguments Throw {A} e.

Definition returns {A : Type} (c : completion A) : Prop :=
  exists a, c = Normal a.

End JS.
Import JS.

(** ** Strings: the methods of String.prototype the source calls *)

Module Str.

Fixpoint drop (n : nat) (s : string) : string :=
  match n, s with
  | S k, String _ s' => drop k s'
  | _, _ => s
  end.

(** [s.startsWith(prefix)] *)
Fixpoint startsWith (s prefix : string) {struct prefix} : bool :=
  match prefix with
  | "" => true
  | String a prefix' =>
      match s with
      | "" => false
      | String b s' => Ascii.eqb b a && startsWith s' prefix'
      end
  end.

(** [cut needle s]: what stands before and after the first occurrence of
    [needle] in [s] (the occurrence [indexOf] finds), if there is one. *)
Fixpoint cut (needle s : string) : option (string * string) :=
  if startsWith s needle then Some ("", drop (String.length needle) s)
  else match s with
       | "" => None
       | String c s' =>
           match cut needle s' with
           | Some (before, after) => Some (String c before, after)
           | None => None
           end
       end.

(** GetSubstitution of ECMA-262 for a string pattern (no capture groups).
    In the replacement text, [$$] stands for a dollar, [$&] for the matched
    text, [$`] for what precedes the match and [$'] for what follows it;
    any other dollar is literal. *)
Fixpoint GetSubstitution (matched before after template : string) : string :=
  match template with
  | "" => ""
  | String c rest =>
      if Ascii.eqb c "$" then
        match rest with
        | String d rest' =>
            if Ascii.eqb d "$" then
              String "$" (GetSubstitution matched before after rest')
            else if Ascii.eqb d "&" then
              matched +:+ GetSubstitution matched before after rest'
            else if Ascii.eqb d "`" then
              before +:+ GetSubstitution matched before after rest'
            else if Ascii.eqb d "'" then
              after +:+ GetSubstitution matched before after rest'
            else String c (GetSubstitution matched before after rest)
        | "" => String c ""
        end
      else String c (GetSubstitution matched before after rest)
  end.

(** [s.replace(pattern, replacement)] with a string pattern: the first
    occurrence only; [s] itself when there is none. *)
Definition replace (pattern replacement s : string) : string :=
  match cut pattern s with
  | None => s
  | Some (before, after) =>
      before +:+ GetSubstitution pattern before after replacement +:+ after
  end.

(** [s.split(separator)] for a non-empty separator. Every cut consumes at
    least one character, so [length s] rounds are enough. *)
Fixpoint split_rounds (rounds : nat) (separator s : string) : list string :=
  match rounds with
  | O => [s]
  | S k =>
      match cut separator s with
      | None => [s]
      | Some (before, after) => before :: split_rounds k separator after
      end
  end.

Definition split (separator s : string) : list string :=
  split_rounds (String.length s) separator s.

(** [pieces.join(glue)] *)
Fixpoint join (glue : string) (pieces : list string) : string :=
  match pieces with
  | [] => ""
  | [piece] => piece
  | piece :: rest => piece +:+ glue +:+ join glue rest
  end.

(** [s.endsWith(suffix)] *)
Definition endsWith (s suffix : string) : bool :=
  (String.length suffix <=? String.length s)%nat &&
  String.eqb (drop (String.length s - String.length suffix) s) suffix.

(** [c] occurs in [s]. *)
Fixpoint mentions (c : ascii) (s : string) : bool :=
  match s with
  | "" => false
  | String d s' => Ascii.eqb c d || mentions c s'
  end.

End Str.

(** ** Values the renderer and the store handle *)

(** A placeholder value: [string | number | null]. *)
Inductive value : Type :=
  | VStr (s : string)
  | VNum (n : number)
  | VNull.

(** What the store holds and the loader returns: a table, or one of the
    absent values. *)
Inductive any : Type :=
  | AUndefined
  | ANull
  | AObj (table : gmap string string).

(** ToBoolean: every object is truthy, the empty one included. *)
Definition truthy (x : any) : bool :=
  match x with
  | AObj _ => true
  | AUndefined | ANull => false
  end.

(** What the source takes from the host: the conversions behind
    [Number(...)] and [String(...)], and [JSON.parse], which raises
    SyntaxError on malformed text. *)
Class Host : Type := {
  StringToNumber : string -> number;
  NumberToString : number -> string;
  JSON_parse : string -> completion any
}.

(** [Number(x)] where [x] is a property read: [None] is [undefined]. *)
Definition Number `{Host} (x : option value) : number :=
  match x with
  | None => NaN
  | Some VNull => Int 0
  | Some (VNum n) => n
  | Some (VStr s) => StringToNumber s
  end.

(** [String(v)] *)
Definition ToString `{Host} (v : value) : string :=
  match v with
  | VStr s => s
  | VNum n => NumberToString n
  | VNull => "null"
  end.

(** A plain object with string keys, as the sequence of its own properties
    in the order [for ... in] visits them. *)
Definition object : Type := list (string * value).

(** [o[key]] *)
Fixpoint getProperty (key : string) (o : object) : option value :=
  match o with
  | [] => None
  | (k, v) :: rest => if String.eqb k key then Some v else getProperty key rest
  end.

(** [o[key] = v]: an existing property keeps its place, a new one comes
    last. *)
Fixpoint setProperty (key : string) (v : value) (o : object) : object :=
  match o with
  | [] => [(key, v)]
  | (k, w) :: rest =>
      if String.eqb k key then (k, v) :: rest else (k, w) :: setProperty key v rest
  end.

(** The second argument of [t]: [string[]], or a record of values. *)
Inductive placeholders : Type :=
  | Positional (values : list string)
  | Named (entries : object).

(** What [this.data[path]] is, and what [t] returns: a string or undefined,
    or a member that the table inherits from Object.prototype (a function,
    or the prototype itself for [__proto__]). A string or undefined is
    written as an [option string]. *)
Inductive rendered : Type :=
  | Plain (x : option string)
  | Inherited (name : string).
#[warnings="-uniform-inheritance"] Coercion Plain : option >-> rendered.

(** The property names of Object.prototype. *)
Definition object_prototype : list string :=
  [ "constructor"; "__defineGetter__"; "__defineSetter__"; "hasOwnProperty";
    "__lookupGetter__"; "__lookupSetter__"; "isPrototypeOf";
    "propertyIsEnumerable"; "toString"; "valueOf"; "__proto__";
    "toLocaleString" ].

Definition inherited (name : string) : bool :=
  bool_decide (name ∈ object_prototype).

(** [table[path]]: an own property first, then the prototype. *)
Definition lookup (table : gmap string string) (path : string) : rendered :=
  match table !! path with
  | Some d => Some d
  | None => if inherited path then Inherited path else None
  end.

(** ** class Language *)

Record Language : Type := mkLanguage {
  languageCode : string;
  data : any
}.

(** [this.data[path]]: reading a property of null or undefined raises. *)
Definition template (this : Language) (path : string) : completion rendered :=
  match data this with
  | AObj table => Normal (lookup table path)
  | AUndefined | ANull => Throw TypeError
  end.

(** ** Language.getCountSuffix *)

Definition getCountSuffix (count : number) : string :=
  if strict_eq count (Int 0) then ".zero"
  else if strict_eq count (Int 11) then ".many"
  else switch (rem count 10)
         [ (Int 0, ".many");
           (Int 1, ".one");
           (Int 2, ".few"); (Int 3, ".few"); (Int 4, ".few") ]
         ".many".

(** The decision order as the specification words it, over the integers and
    for a given reading [residue] of "count mod 10". *)
Definition decision_order (residue : Z -> Z) (count : Z) : string :=
  if decide (count = 0) then ".zero"
  else if decide (count = 11) then ".many"
  else match residue count with
       | 0 => ".many"
       | 1 => ".one"
       | 2 | 3 | 4 => ".few"
       | _ => ".many"
       end.

(** The remainder the source computes: [count % 10]. *)
Definition truncated_residue (count : Z) : Z := Z.rem count 10.

(** The table of the specification's testable property. *)
Inductive suffix_table : Z -> string -> Prop :=
  | table_zero : suffix_table 0 ".zero"
  | table_eleven : suffix_table 11 ".many"
  | table_one n : n ∈ [1; 21; 31] -> suffix_table n ".one"
  | table_few n : n ∈ [2; 3; 4; 22; 23; 24] -> suffix_table n ".few"
  | table_many n :
      5 <= n <= 10 \/ 12 <= n <= 20 \/ 25 <= n <= 30 -> suffix_table n ".many".

(** The loop of the positional branch. [data] is [None] when the caller
    passed [undefined], on which [.replace] raises; an inherited member has
    no [replace] method either. *)
Fixpoint replacePositional (data : rendered) (values : list string)
  : completion rendered :=
  match values with
  | [] => Normal data
  | placeholder :: rest =>
      match data with
      | Plain (Some d) =>
          replacePositional (Some (Str.replace "%s" placeholder d)) rest
      | Plain None | Inherited _ => Throw TypeError
      end
  end.

(** The loop of the named branch, over the properties in [for ... in]
    order. *)
Fixpoint replaceNamed `{Host} (data : rendered) (entries : object)
  : completion rendered :=
  match entries with
  | [] => Normal data
  | (key, v) :: rest =>
      match data with
      | Plain (Some d) =>
          replaceNamed
            (Some (Str.join (ToString v) (Str.split ("{{" +:+ key +:+ "}}") d)))
            rest
      | Plain None | Inherited _ => Throw TypeError
      end
  end.

Definition replacePlaceholders `{Host} (data : rendered) (p : placeholders)
  : completion rendered :=
  match p with
  | Positional values => replacePositional data values
  | Named entries => replaceNamed data entries
  end.

(** Lines 16 to 19 of [t]: the path that will be looked up and the
    placeholders as the call leaves them. *)
Definition pluralize `{Host} (path : string) (p : placeholders) : string * placeholders :=
  match p with
  | Positional _ => (path, p)
  | Named entries =>
      if negb (isNaN (Number (getProperty "count" entries))) then
        let count := Number (getProperty "count" entries) in
        (path +:+ getCountSuffix count, Named (setProperty "count" (VNum count) entries))
      else (path, p)
  end.

(** [t] returns its result and leaves the placeholders object as [pluralize]
    wrote it. A call without placeholders is a call with [Positional []]. *)
Definition t `{Host} (this : Language) (path : string) (p : placeholders)
  : completion rendered * placeholders :=
  let '(path, p) := pluralize path p in
  match template this path with
  | Normal tpl => (replacePlaceholders tpl p, p)
  | Throw e => (Throw e, p)
  end.

(** [has]: [path in this.data] answers for own and for inherited
    properties. *)
Definition has (this : Language) (path : string) : completion bool :=
  match data this with
  | AObj table => Normal (bool_decide (is_Some (table !! path)) || inherited path)
  | AUndefined | ANull => Throw TypeError
  end.

(** The caller's placeholders object lives in a heap; [t] receives a
    reference to it and writes through that reference. *)
Definition loc : Type := positive.

Definition t_at `{Host} (this : Language) (path : string) (l : loc)
    (h : gmap loc placeholders)
  : option (completion rendered * gmap loc placeholders) :=
  match h !! l with
  | None => None
  | Some p => let '(r, p') := t this path p in Some (r, <[l := p']> h)
  end.

(** [placeholders.count] for a record, nothing for an array. *)
Definition count_of (p : placeholders) : option value :=
  match p with
  | Named entries => getProperty "count" entries
  | Positional _ => None
  end.

(** No placeholder at all: the empty array or the empty record. *)
Definition no_placeholders (p : placeholders) : Prop :=
  p = Positional [] \/ p = Named [].

(** Positional substitution as the specification words it: scan the
    template from the left and give each marker the next unused value;
    markers that remain when the values run out stay. *)
Fixpoint substitute_in_order (tpl : string) (values : list string) : string :=
  match values with
  | [] => tpl
  | v :: rest =>
      match tpl with
      | "" => ""
      | String c tl =>
          match tl with
          | String d tl' =>
              if Ascii.eqb c "%" && Ascii.eqb d "s"
              then v +:+ substitute_in_order tl' rest
              else String c (substitute_in_order tl values)
          | "" => tpl
          end
      end
  end.

(** A value is plain when it has neither a percent sign nor a dollar. *)
Definition plain (v : string) : bool :=
  negb (Str.mentions "%" v) && negb (Str.mentions "$" v).

(** No marker of the template has a percent sign right before it. *)
Fixpoint no_percent_before_marker (s : string) : bool :=
  match s with
  | "" => true
  | String c s' =>
      negb (Ascii.eqb c "%" && Str.startsWith s' "%s") &&
      no_percent_before_marker s'
  end.

(** Every percent sign of [q] is followed by a character other than [s]:
    [q] holds no marker and cannot complete one with what follows it. *)
Fixpoint inert (q : string) : bool :=
  match q with
  | "" => true
  | String c q' =>
      negb (Ascii.eqb c "%" &&
            match q' with "" => true | String d _ => Ascii.eqb d "s" end) &&
      inert q'
  end.

(** ** The Translation Store *)

(** Modelled from the spec: rgcache's MemoryCache is a dependency of the
    repository and is not among its sources. The store is a key-value
    lookup with a loader: [get] returns the entry when there is one and
    otherwise asks the loader and keeps its answer; [set] writes an entry.
    Expiry is left out (the default time-to-live never expires). *)
Record MemoryCache : Type := mkCache {
  entries : gmap string any;
  loader : string -> any
}.

Definition cache_set (key : string) (v : any) (c : MemoryCache) : MemoryCache :=
  {| entries := <[key := v]> (entries c); loader := loader c |}.

Definition cache_get (key : string) (c : MemoryCache) : any * MemoryCache :=
  match entries c !! key with
  | Some v => (v, c)
  | None => (loader c key, cache_set key (loader c key) c)
  end.

(** What [get key] answers in the state [c]. *)
Definition stored (key : string) (c : MemoryCache) : any :=
  default (loader c key) (entries c !! key).

(** ** class LanguageController *)

(** The request context: [ctx.from?.language_code] and [ctx.lang]. *)
Record Context : Type := mkContext {
  language_code : option string;
  lang : option Language
}.

Definition bind (ctx : Context) (l : Language) : Context :=
  {| language_code := language_code ctx; lang := Some l |}.

(** The answer of a language resolver: [string | string[]]. *)
Inductive resolved : Type :=
  | One (language : string)
  | Many (languages : list string).

Record LanguageController : Type := mkController {
  cache : MemoryCache;
  languageResolver : string -> Context -> resolved;
  fallbackLanguage : string
}.

(** [ctx.from?.language_code ?? this.fallbackLanguage]. A resolver is called
    as a method of the controller; its first argument is what the default
    one reads of [this]. *)
Definition defaultLanguageResolver (fallback : string) (ctx : Context) : resolved :=
  One (default fallback (language_code ctx)).

Record LanguageControllerOptions : Type := mkOptions {
  opt_loader : option (string -> any);
  opt_languageResolver : option (Context -> resolved);
  opt_fallbackLanguage : option string
}.

(** The constructor. The default loader answers the empty object. *)
Definition newLanguageController (options : LanguageControllerOptions) : LanguageController :=
  {| cache := {| entries := ∅;
                 loader := default (fun _ => AObj ∅) (opt_loader options) |};
     fallbackLanguage := default "en" (opt_fallbackLanguage options);
     languageResolver :=
       match opt_languageResolver options with
       | Some resolver => fun _ => resolver
       | None => defaultLanguageResolver
       end |}.

Definition with_cache (this : LanguageController) (c : MemoryCache) : LanguageController :=
  {| cache := c;
     languageResolver := languageResolver this;
     fallbackLanguage := fallbackLanguage this |}.

(** The calls to the file system that can raise (EACCES, EISDIR, ...). *)
Inductive fs_call : Type := lstatSync | readdirSync | readFileSync.

(** What stands at a path under the one given to [preloadLanguages]: a file
    and its text, a directory and its listing, nothing ([fs.existsSync]
    answers false, as for a dangling link that a listing names), or
    something on which one of the calls raises. *)
#[warnings="-register-all"] Inductive node : Type :=
  | File (content : string)
  | Directory (listing : list (string * node))
  | Missing
  | Failing (call : fs_call) (e : error).

(** [items.forEach(f)] for an [f] that works on a state and may raise: the
    first exception ends the loop. *)
Definition forEach {A S : Type} (f : A -> S -> completion unit * S)
  : list A -> S -> completion unit * S :=
  fix each (items : list A) (s : S) : completion unit * S :=
    match items with
    | [] => (Normal tt, s)
    | item :: rest =>
        match f item s with
        | (Normal _, s') => each rest s'
        | (Throw e, s') => (Throw e, s')
        end
    end.

(** [preloadLanguages] on a path that exists and resolves to [target]. *)
Fixpoint preload `{Host} (folderOrFile : string) (target : node) (c : MemoryCache)
  : completion unit * MemoryCache :=
  match target with
  | Missing => (Normal tt, c)
  | Failing lstatSync e => (Throw e, c)
  | Directory listing =>
      forEach
        (fun entry c =>
           preload (folderOrFile +:+ "/" +:+ entry.1) entry.2 c)
        listing c
  | Failing readdirSync e => (Throw e, c)
  | File content =>
      if Str.endsWith folderOrFile ".json" then
        match JSON_parse content with
        | Normal parsed => (Normal tt, cache_set folderOrFile parsed c)
        | Throw e => (Throw e, c)
        end
      else (Normal tt, c)
  | Failing readFileSync e =>
      if Str.endsWith folderOrFile ".json" then (Throw e, c) else (Normal tt, c)
  end.

(** [preloadLanguages]: [target] is what the path resolves to, [None] when
    [fs.existsSync] answers false. *)
Definition preloadLanguages `{Host} (this : LanguageController)
    (folderOrFile : string) (target : option node)
  : completion unit * LanguageController :=
  match target with
  | None => (Normal tt, this)
  | Some n =>
      let '(r, c) := preload folderOrFile n (cache this) in (r, with_cache this c)
  end.

(** The candidates of a request: a single answer of the resolver is a list
    of one. *)
Definition candidates (this : LanguageController) (ctx : Context) : list string :=
  match languageResolver this (fallbackLanguage this) ctx with
  | One language => [language]
  | Many languages => languages
  end.

(** The loop of [middleware] and what follows it. [next] stands for the
    downstream handlers: it receives the context and the controller as the
    middleware leaves them, and the middleware returns what it returns. *)
Fixpoint probe {R : Type} (this : LanguageController) (ctx : Context)
    (next : Context -> LanguageController -> R) (languages : list string) : R :=
  match languages with
  | language :: rest =>
      let '(languageData, c) := cache_get language (cache this) in
      if negb (truthy languageData) then probe (with_cache this c) ctx next rest
      else next (bind ctx (mkLanguage language languageData)) (with_cache this c)
  | [] =>
      let '(fallbackData, c) := cache_get (fallbackLanguage this) (cache this) in
      next (bind ctx (mkLanguage (fallbackLanguage this) fallbackData))
           (with_cache this c)
  end.

Definition middleware {R : Type} (this : LanguageController) (ctx : Context)
    (next : Context -> LanguageController -> R) : R :=
  probe this ctx next (candidates this ctx).

(** The store answers null or undefined for [language]. *)
Definition falsy_in (c : MemoryCache) (language : string) : Prop :=
  truthy (stored language c) = false.

(** The continuation that hands back the context and the controller with
    which the downstream handlers are entered. *)
Definition observe (ctx : Context) (this : LanguageController)
  : Context * LanguageController := (ctx, this).

(** Where [preload] can take a path: the path itself, or below an entry of a
    directory it reaches, under the name the listing gives joined with a
    slash. *)
Inductive reaches : string -> node -> string -> node -> Prop :=
  | reaches_here path n : reaches path n path n
  | reaches_entry path listing file child path' n' :
      (file, child) ∈ listing ->
      reaches (path +:+ "/" +:+ file) child path' n' ->
      reaches path (Directory listing) path' n'.

(** [k] holds the parse of a language file that [preload] reaches at the
    path [k] itself. *)
Definition preloaded `{Host} (path : string) (n : node) (c : MemoryCache) (k : string) : Prop :=
  exists content v,
    reaches path n k (File content) /\ Str.endsWith k ".json" = true /\
    JSON_parse content = Normal v /\ entries c !! k = Some v.

(** From [c] to [c'] the loader is the same and every key is as it was or
    holds a preloaded file. *)
Definition kept_or_preloaded `{Host} (path : string) (n : node) (c c' : MemoryCache) : Prop :=
  loader c' = loader c /\
  forall k, entries c' !! k = entries c !! k \/ preloaded path n c' k.

(** What a preload does, in order: it parses the text found at a path and
    stores the result under that path, or a call to the file system
    raises. *)
Inductive step : Type :=
  | Parse (key content : string)
  | Raise (e : error).

(** The steps of the preload of [n] at [path], in the order of the walk. *)
Fixpoint steps (path : string) (n : node) : list step :=
  match n with
  | Missing => []
  | Failing lstatSync e => [Raise e]
  | Directory listing =>
      concat (map (fun entry => steps (path +:+ "/" +:+ entry.1) entry.2) listing)
  | Failing readdirSync e => [Raise e]
  | File content => if Str.endsWith path ".json" then [Parse path content] else []
  | Failing readFileSync e => if Str.endsWith path ".json" then [Raise e] else []
  end.

(** Steps done one after the other on the store, up to the first that
    raises. *)
Fixpoint run `{Host} (todo : list step) (c : MemoryCache)
  : completion unit * MemoryCache :=
  match todo with
  | [] => (Normal tt, c)
  | Parse key content :: rest =>
      match JSON_parse content with
      | Normal parsed => run rest (cache_set key parsed c)
      | Throw e => (Throw e, c)
      end
  | Raise e :: _ => (Throw e, c)
  end.

(** ** A host for the examples *)

(** It reads decimal integer literals (and the empty string, which is 0),
    prints integers in decimal and parses the text of the empty object. It
    answers NaN, the empty string or SyntaxError elsewhere, which need not
    be the host's answer; the examples stay within this fragment. *)
Definition integer_host : Host := {|
  StringToNumber s :=
    if String.eqb s "" then Int 0
    else match DecimalString.NilZero.int_of_string s with
         | Some i => Int (Z.of_int i)
         | None => NaN
         end;
  NumberToString n :=
    match n with
    | Int z => DecimalString.NilZero.string_of_int (Z.to_int z)
    | Infinity false => "Infinity"
    | Infinity true => "-Infinity"
    | NaN => "NaN"
    | Frac _ => ""
    end;
  JSON_parse text :=
    if String.eqb text "{}" then Normal (AObj ∅) else Throw SyntaxError
|}.

(** ** The objects of the test suite *)

Definition greeting_en : Language :=
  mkLanguage "en" (AObj {[ "greeting" := "Hello" ]}).

Definition pair_en : Language :=
  mkLanguage "en" (AObj {[ "pair" := "%s and %s" ]}).

Definition item_en : Language :=
  mkLanguage "en"
    (AObj {[ "item.zero" := "No items";
             "item.one" := "One item";
             "item.few" := "{{count}} items";
             "item.many" := "{{count}} items" ]}).

(** A controller with the default loader whose resolver proposes French,
    then English, and whose store has English only. *)
Definition fr_then_en : LanguageController :=
  let this :=
    newLanguageController
      {| opt_loader := None;
         opt_languageResolver := Some (fun _ => Many ["fr"; "en"]);
         opt_fallbackLanguage := None |} in
  with_cache this (cache_set "en" (AObj {[ "greeting" := "Hello" ]}) (cache this)).

(** The controller of the fallback test: the store answers the Spanish
    table for "es" and null for anything else; the resolver is the default
    one and the fallback language is Spanish. *)
Definition es_fallback : LanguageController :=
  newLanguageController
    {| opt_loader := Some (fun key =>
                             if String.eqb key "es"
                             then AObj {[ "greeting" := "Hola" ]} else ANull);
       opt_languageResolver := None;
       opt_fallbackLanguage := Some "es" |}.

(** The same controller over a store that answers null for everything. *)
Definition no_data : LanguageController :=
  with_cache es_fallback (mkCache ∅ (fun _ => ANull)).

Definition english_user : Context :=
  {| language_code := Some "en"; lang := None |}.

(** A directory of two language files and a note. *)
Definition locales : node :=
  Directory [ ("en.json", File "{}"); ("README.txt", File "notes");
              ("extra", Directory [ ("ru.json", File "{}") ]) ].

Definition empty_controller : LanguageController :=
  newLanguageController
    {| opt_loader := None; opt_languageResolver := None;
       opt_fallbackLanguage := None |}.

(** No marker of the placeholders occurs in [d]: no "%s" for an array, no
    token in double braces of any key for a record. *)
Definition unmatched (d : string) (p : placeholders) : Prop :=
  match p with
  | Positional _ => Str.cut "%s" d = None
  | Named entries =>
      Forall (fun entry => Str.cut ("{{" +:+ entry.1 +:+ "}}") d = None) entries
  end.

(** * Properties *)

(** ** Properties of the string methods *)

Section Strings.

Lemma append_String (c : ascii) (s x : string) :
  String c s +:+ x = String c (s +:+ x).
Proof. reflexivity. Qed.

Lemma append_assoc (s x y : string) : (s +:+ x) +:+ y = s +:+ x +:+ y.
Proof.
  induction s as [| c s IH]; [done |]. rewrite !append_String. by f_equal.
Qed.

Lemma length_append (a b : string) :
  String.length (a +:+ b) = (String.length a + String.length b)%nat.
Proof.
  induction a as [| c a IH]; [done |]. rewrite append_String. cbn. by rewrite IH.
Qed.

Lemma startsWith_drop (s needle : string) :
  Str.startsWith s needle = true ->
  s = needle +:+ Str.drop (String.length needle) s.
Proof.
  revert s. induction needle as [| a needle IH]; intros s; [by destruct s |].
  destruct s as [| b s]; [discriminate |]. cbn.
  intros [->%Ascii.eqb_eq Hs]%andb_true_iff. rewrite append_String.
  f_equal. by apply IH.
Qed.

Lemma cut_spec (needle s before after : string) :
  Str.cut needle s = Some (before, after) -> s = before +:+ needle +:+ after.
Proof.
  revert before. induction s as [| c s IH]; intros before; cbn.
  - destruct (Str.startsWith "" needle) eqn:E; [| discriminate].
    intros [= <- <-]. by apply startsWith_drop.
  - destruct (Str.startsWith (String c s) needle) eqn:E.
    + intros [= <- <-]. by apply startsWith_drop.
    + destruct (Str.cut needle s) as [[b a] |]; [| discriminate].
      intros [= <- <-]. rewrite append_String. f_equal. by apply IH.
Qed.

(** A cut at a non-empty separator leaves less than there was. *)
Lemma cut_shorter (needle s before after : string) :
  needle <> "" -> Str.cut needle s = Some (before, after) ->
  (String.length after < String.length s)%nat.
Proof.
  intros Hne Hcut. apply cut_spec in Hcut as ->.
  rewrite !length_append. destruct needle; [done |]. cbn [String.length]. lia.
Qed.

(** [split] never stops short: any number of rounds from the length of the
    string on gives the same pieces. *)
Lemma split_rounds_enough (separator : string) (n m : nat) (s : string) :
  separator <> "" ->
  (String.length s <= n)%nat -> (String.length s <= m)%nat ->
  Str.split_rounds n separator s = Str.split_rounds m separator s.
Proof.
  intros Hne. revert m s. induction n as [| n IH]; intros m s Hn Hm.
  - destruct s; [| cbn in Hn; lia].
    destruct m; [done |]. cbn. by destruct separator.
  - cbn. destruct (Str.cut separator s) as [[b a] |] eqn:Hcut.
    + pose proof (cut_shorter _ _ _ _ Hne Hcut).
      destruct m; [lia |]. cbn. rewrite Hcut. f_equal. apply IH; lia.
    + destruct m; [| cbn; by rewrite Hcut].
      by destruct s.
Qed.

Lemma split_rounds_split (separator : string) (n : nat) (s : string) :
  separator <> "" -> (String.length s <= n)%nat ->
  Str.split_rounds n separator s = Str.split separator s.
Proof. intros. by apply split_rounds_enough. Qed.

End Strings.

(** ** Properties of getCountSuffix *)

Section CountSuffix.

Lemma getCountSuffix_Int (count : Z) :
  getCountSuffix (Int count) =
    if count =? 0 then ".zero"
    else if count =? 11 then ".many"
    else if Z.rem count 10 =? 0 then ".many"
    else if Z.rem count 10 =? 1 then ".one"
    else if Z.rem count 10 =? 2 then ".few"
    else if Z.rem count 10 =? 3 then ".few"
    else if Z.rem count 10 =? 4 then ".few"
    else ".many".
Proof. reflexivity. Qed.

Ltac eqb_cases :=
  repeat match goal with
    | |- context [?a =? ?b] => destruct (Z.eqb_spec a b)
    end.

(** C1: the specification tabulates ".many" for 12..20, as for 5..10 and
    25..30; the source special-cases 11 only, so 12, 13 and 14 reach the
    switch with residues 2, 3, 4 and get ".few". *)
Theorem getCountSuffix_teens :
  suffix_table 12 ".many" /\ getCountSuffix (Int 12) = ".few" /\
  suffix_table 13 ".many" /\ getCountSuffix (Int 13) = ".few" /\
  suffix_table 14 ".many" /\ getCountSuffix (Int 14) = ".few".
Proof. repeat split; try reflexivity; apply table_many; lia. Qed.

(** Everywhere else on the tabulated range 0..31 the table is what the
    source computes. *)
Lemma getCountSuffix_table_except_teens (n : Z) (s : string) :
  suffix_table n s -> ~ 12 <= n <= 14 -> getCountSuffix (Int n) = s.
Proof.
  destruct 1 as [| | n H | n H | n H]; intros Hteen; try reflexivity.
  - repeat (apply elem_of_cons in H as [-> | H]; [reflexivity |]).
    by apply elem_of_nil in H.
  - repeat (apply elem_of_cons in H as [-> | H]; [reflexivity |]).
    by apply elem_of_nil in H.
  - assert (exists k : nat, n = Z.of_nat k /\ (k < 31)%nat) as (k & -> & Hk)
      by (exists (Z.to_nat n); lia).
    do 31 (destruct k as [| k]; [first [reflexivity | exfalso; lia] |]).
    exfalso; lia.
Qed.

(** C4: on every integer, getCountSuffix takes the decisions in the stated
    order: 0 first, then 11, then the residue of count by 10 with 0 -> many,
    1 -> one, 2, 3, 4 -> few and many otherwise. The residue is the one the
    source computes with [%]. *)
Theorem getCountSuffix_decision_order (count : Z) :
  getCountSuffix (Int count) = decision_order truncated_residue count.
Proof.
  rewrite getCountSuffix_Int. unfold decision_order, truncated_residue.
  generalize (Z.rem count 10) as r; intros r.
  repeat case_decide; subst; try reflexivity;
    destruct (Z.eqb_spec count 0), (Z.eqb_spec count 11); try lia.
  by destruct r as [| [[[p | p |] | [p | p |] |] | [[p | p |] | [p | p |] |] |] | p].
Qed.

(** On the non-negative integers the truncated remainder is the usual
    residue, so the decision order can be read with either. *)
Lemma decision_order_nonneg (count : Z) :
  0 <= count ->
  decision_order truncated_residue count = decision_order (fun c => c mod 10) count.
Proof.
  intros H. unfold decision_order, truncated_residue.
  by rewrite Z.rem_mod_nonneg by lia.
Qed.

(** Below zero the two readings part: at -9 the source computes -9 and
    answers ".many", where the residue of the floor division is 1. *)
Lemma decision_order_negative_residue :
  getCountSuffix (Int (-9)) = ".many" /\
  decision_order (fun c => c mod 10) (-9) = ".one".
Proof. split; reflexivity. Qed.

(** What is not an integer (a fraction, an infinity, NaN) reaches the
    default case. *)
Lemma getCountSuffix_not_integer (count : number) :
  (forall z, count <> Int z) -> getCountSuffix count = ".many".
Proof.
  intros Hz. destruct count as [| negative | z | q]; try reflexivity.
  by destruct (Hz z).
Qed.

(** C9: every strictly negative integer gets ".many". *)
Theorem getCountSuffix_negative (count : Z) :
  count < 0 -> getCountSuffix (Int count) = ".many".
Proof.
  intros H. rewrite getCountSuffix_Int.
  pose proof (Z.rem_nonpos count 10 ltac:(lia) ltac:(lia)).
  eqb_cases; try lia; reflexivity.
Qed.

Lemma getCountSuffix_negative_witness : getCountSuffix (Int (-9)) = ".many".
Proof. apply (getCountSuffix_negative (-9)). lia. Defined.

End CountSuffix.

(** ** Properties of Language.t *)

Section Rendering.

Context `{Host}.

Lemma replacePositional_defined (d : string) (values : list string) :
  exists s, replacePositional (Some d) values = Normal (Some s).
Proof.
  revert d. induction values as [| v values IH]; intros d; simpl; eauto.
Qed.

Lemma replaceNamed_defined (d : string) (entries : object) :
  exists s, replaceNamed (Some d) entries = Normal (Some s).
Proof.
  revert d. induction entries as [| [k v] entries IH]; intros d; simpl; eauto.
Qed.

Lemma replacePlaceholders_defined (d : string) (p : placeholders) :
  exists s, replacePlaceholders (Some d) p = Normal (Some s).
Proof.
  destruct p; [apply replacePositional_defined | apply replaceNamed_defined].
Qed.

Lemma no_placeholders_dec (p : placeholders) :
  no_placeholders p \/ ~ no_placeholders p.
Proof.
  unfold no_placeholders.
  destruct p as [[| v values] | [| e entries]]; auto;
    right; intros [E | E]; discriminate.
Qed.

Lemma replacePlaceholders_not_string (x : rendered) (p : placeholders) :
  (forall d : string, x <> Some d) ->
  (no_placeholders p -> replacePlaceholders x p = Normal x) /\
  (~ no_placeholders p -> replacePlaceholders x p = Throw TypeError).
Proof.
  intros Hx. unfold no_placeholders.
  assert (Hv : forall values, values <> [] ->
                 replacePositional x values = Throw TypeError).
  { intros [| v values] Hne; [done |]. simpl.
    destruct x as [[d |] |]; try reflexivity. by destruct (Hx d). }
  assert (He : forall entries, entries <> [] ->
                 replaceNamed x entries = Throw TypeError).
  { intros [| [k v] entries] Hne; [done |]. simpl.
    destruct x as [[d |] |]; try reflexivity. by destruct (Hx d). }
  destruct p as [values | entries]; simpl; split; intros Hp.
  - by destruct Hp as [[= ->] | [=]].
  - apply Hv. intros ->. by apply Hp; left.
  - by destruct Hp as [[=] | [= ->]].
  - apply He. intros ->. by apply Hp; right.
Qed.

Lemma lookup_own (table : gmap string string) (path d : string) :
  table !! path = Some d -> lookup table path = Some d.
Proof. unfold lookup. by intros ->. Qed.

Lemma lookup_not_own (table : gmap string string) (path : string) :
  table !! path = None -> forall d : string, lookup table path <> Some d.
Proof. unfold lookup. intros -> d. by destruct (inherited path). Qed.

Lemma split_rounds_nonempty (n : nat) (separator s : string) :
  Str.split_rounds n separator s <> [].
Proof.
  destruct n; simpl; [done |]. by destruct (Str.cut separator s) as [[b a] |].
Qed.

Lemma split_join_absent (separator glue s : string) :
  Str.cut separator s = None -> Str.join glue (Str.split separator s) = s.
Proof.
  intros Hcut. unfold Str.split. destruct (String.length s); [done |].
  cbn [Str.split_rounds]. by rewrite Hcut.
Qed.

Lemma unmatched_same (d : string) (p : placeholders) :
  unmatched d p -> replacePlaceholders (Some d) p = Normal (Some d).
Proof.
  destruct p as [values | entries]; simpl; intros Hp.
  - induction values as [| v values IH]; [done |].
    simpl. unfold Str.replace. by rewrite Hp.
  - induction entries as [| [k v] entries IH]; [done |].
    apply Forall_cons in Hp as [Hk Hp]. simpl in *.
    rewrite split_join_absent by done. by apply IH.
Qed.

Lemma getProperty_setProperty (key : string) (v : value) (o : object) :
  getProperty key (setProperty key v o) = Some v.
Proof.
  induction o as [| [k w] o IH]; simpl.
  - by rewrite String.eqb_refl.
  - destruct (String.eqb k key) eqn:E; simpl; by rewrite E.
Qed.

Lemma getProperty_setProperty_other (key k : string) (v : value) (o : object) :
  k <> key -> getProperty k (setProperty key v o) = getProperty k o.
Proof.
  intros Hne.
  assert (Hk : String.eqb key k = false) by (apply String.eqb_neq; congruence).
  induction o as [| [k' w] o IH]; simpl.
  - by rewrite Hk.
  - destruct (String.eqb k' key) eqn:E; simpl; [| by rewrite IH].
    apply String.eqb_eq in E as ->. by rewrite Hk.
Qed.

Lemma setProperty_same (key : string) (v : value) (o : object) :
  is_Some (getProperty key o) ->
  setProperty key v o = o <-> getProperty key o = Some v.
Proof.
  induction o as [| [k w] o IH]; simpl.
  - intros [? ?]; discriminate.
  - destruct (String.eqb k key) eqn:E; intros Hk.
    + split; [intros [= ->] | intros [= ->]]; reflexivity.
    + specialize (IH Hk). split.
      * intros [= Ho]. by apply IH.
      * intros Hg. f_equal. by apply IH.
Qed.

Lemma setProperty_keys (key : string) (v : value) (o : object) :
  is_Some (getProperty key o) -> (setProperty key v o).*1 = o.*1.
Proof.
  induction o as [| [k w] o IH]; cbn [setProperty getProperty].
  - intros [? ?]; discriminate.
  - destruct (String.eqb k key); intros Hk; [done |].
    rewrite !fmap_cons. by rewrite IH.
Qed.

Lemma unmatched_pluralize (d path : string) (p : placeholders) :
  unmatched d p -> unmatched d (pluralize path p).2.
Proof.
  destruct p as [values | entries]; simpl; [done |].
  destruct (isNaN (Number (getProperty "count" entries))) eqn:Hn; simpl; [done |].
  intros Hp.
  apply (Forall_fmap fst (fun k => Str.cut ("{{" +:+ k +:+ "}}") d = None)).
  rewrite setProperty_keys.
  - by apply (Forall_fmap fst (fun k => Str.cut ("{{" +:+ k +:+ "}}") d = None)).
  - destruct (getProperty "count" entries); [eauto | discriminate Hn].
Qed.

Lemma pluralize_no_placeholders (path : string) (p : placeholders) :
  no_placeholders (pluralize path p).2 <-> no_placeholders p.
Proof.
  unfold no_placeholders.
  destruct p as [values | entries]; simpl; [tauto |].
  destruct (isNaN (Number (getProperty "count" entries))) eqn:E; simpl; [tauto |].
  destruct entries as [| [k w] entries]; [discriminate E |].
  split; (intros [Hp | Hp]; [discriminate Hp |]); exfalso.
  - simpl in Hp. destruct (String.eqb k "count"); discriminate.
  - discriminate.
Qed.

Lemma getCountSuffix_values (count : number) :
  getCountSuffix count ∈ [".zero"; ".one"; ".few"; ".many"].
Proof.
  unfold getCountSuffix, switch.
  repeat match goal with
         | |- context [if ?b then _ else _] => destruct b
         end;
    repeat first [apply list_elem_of_here | apply list_elem_of_further].
Qed.

Lemma append_same (s x : string) : s +:+ x = s -> x = "".
Proof.
  induction s as [| c s IH]; simpl; [done |]. intros [= E]. by apply IH.
Qed.

Lemma pluralize_path (path : string) (p : placeholders) :
  (pluralize path p).1 =
    match count_of p with
    | Some v =>
        if isNaN (Number (Some v)) then path
        else path +:+ getCountSuffix (Number (Some v))
    | None => path
    end.
Proof.
  destruct p as [values | entries]; unfold pluralize, count_of; [done |].
  destruct (getProperty "count" entries) as [v |]; [| done].
  by destruct (isNaN (Number (Some v))).
Qed.

Lemma t_unfold (this : Language) (path : string) (p : placeholders) :
  t this path p =
    (match template this (pluralize path p).1 with
     | Normal tpl => replacePlaceholders tpl (pluralize path p).2
     | Throw e => Throw e
     end, (pluralize path p).2).
Proof.
  unfold t. destruct (pluralize path p) as [path' p']; simpl.
  by destruct (template this path').
Qed.

(** C2, amended: over a table, [t] returns exactly when the path it looks up
    is an own key of the table or there is no placeholder at all. With an
    own key every placeholder set gives a string, which is the template
    itself when none of the placeholders' markers occurs in it. With no
    placeholder the result is [this.data[path]] as it is: the template,
    undefined when the table has no such property, or the member inherited
    from Object.prototype. With no own key and a placeholder, the call
    raises TypeError. *)
Theorem t_returns_iff (code : string) (table : gmap string string)
    (path : string) (p : placeholders) :
  let this := mkLanguage code (AObj table) in
  let looked_up := (pluralize path p).1 in
  (returns (t this path p).1 <->
     is_Some (table !! looked_up) \/ no_placeholders p) /\
  (is_Some (table !! looked_up) ->
     exists s, (t this path p).1 = Normal (Some s)) /\
  (forall d, table !! looked_up = Some d -> unmatched d p ->
     (t this path p).1 = Normal (Some d)) /\
  (no_placeholders p ->
     looked_up = path /\ (t this path p).1 = Normal (lookup table path)) /\
  (table !! looked_up = None -> ~ no_placeholders p ->
     (t this path p).1 = Throw TypeError).
Proof.
  intros this looked_up. rewrite t_unfold. subst this looked_up.
  unfold template. cbn [data].
  pose proof (pluralize_no_placeholders path p) as Hno.
  assert (Hnone : no_placeholders p ->
            (pluralize path p).1 = path /\
            replacePlaceholders (lookup table path) (pluralize path p).2 =
              Normal (lookup table path)).
  { intros Hp. assert (Hpath : (pluralize path p).1 = path)
      by (by destruct Hp as [-> | ->]).
    split; [done |]. apply Hno in Hp. by destruct Hp as [-> | ->]. }
  destruct (table !! (pluralize path p).1) as [d |] eqn:Hd.
  - rewrite (lookup_own _ _ _ Hd).
    destruct (replacePlaceholders_defined d (pluralize path p).2) as [s Hs].
    split; [| split; [| split; [| split]]].
    + rewrite Hs. unfold returns. split; eauto.
    + rewrite Hs. eauto.
    + intros d' [= <-] Hu. by apply unmatched_same, unmatched_pluralize.
    + intros Hp. destruct (Hnone Hp) as [Hpath Hr]. split; [done |].
      rewrite Hpath in Hd. by rewrite (lookup_own _ _ _ Hd) in Hr |- *.
    + discriminate.
  - destruct (replacePlaceholders_not_string
                (lookup table (pluralize path p).1) (pluralize path p).2
                (lookup_not_own _ _ Hd)) as [Hn Ht].
    unfold returns. split; [| split; [| split; [| split]]].
    + split.
      * intros [a Ha]. right. apply Hno.
        destruct (no_placeholders_dec (pluralize path p).2) as [| Hnot];
          [done |]. rewrite (Ht Hnot) in Ha. discriminate.
      * intros [[? ?] | Hp]; [discriminate |].
        rewrite Hn by (by apply Hno). eauto.
    + intros [? ?]; discriminate.
    + discriminate.
    + intros Hp. destruct (Hnone Hp) as [Hpath Hr]. split; [done |].
      by rewrite Hpath.
    + intros _ Hp. apply Ht. by rewrite Hno.
Qed.

(** C7, amended: the path is given a suffix exactly when the placeholders
    are a record whose [count] coerces to something other than NaN, the
    infinities included; the suffix is then that of the coerced number. An
    array never changes the path. *)
Theorem pluralize_iff (path : string) (p : placeholders) :
  ((pluralize path p).1 <> path <->
     exists v, count_of p = Some v /\ isNaN (Number (Some v)) = false) /\
  (forall v, count_of p = Some v -> isNaN (Number (Some v)) = false ->
     (pluralize path p).1 = path +:+ getCountSuffix (Number (Some v)) /\
     count_of (pluralize path p).2 = Some (VNum (Number (Some v)))) /\
  (forall values, (pluralize path (Positional values)).1 = path).
Proof.
  split; [split | split].
  - rewrite pluralize_path. destruct (count_of p) as [v |]; [| done].
    destruct (isNaN (Number (Some v))) eqn:E; [done |]. eauto.
  - rewrite pluralize_path. intros (v & -> & ->) E. apply append_same in E.
    pose proof (getCountSuffix_values (Number (Some v))) as Hs.
    rewrite E in Hs.
    repeat (apply elem_of_cons in Hs as [Hs | Hs]; [discriminate |]).
    by apply elem_of_nil in Hs.
  - intros v Hv Hn. split; [by rewrite pluralize_path, Hv, Hn |].
    destruct p as [values | entries]; [discriminate |].
    simpl in Hv. unfold pluralize. rewrite Hv, Hn. simpl.
    apply getProperty_setProperty.
  - done.
Qed.

(** C8, amended: through the reference it receives, [t] overwrites [count]
    in the caller's record with its coercion and touches nothing else; the
    record then differs from what it was exactly when [count] was not a
    number already. *)
Theorem t_overwrites_count (this : Language) (path : string) (l : loc)
    (h : gmap loc placeholders) (entries : object) (v : value) :
  h !! l = Some (Named entries) ->
  getProperty "count" entries = Some v ->
  isNaN (Number (Some v)) = false ->
  let written := Named (setProperty "count" (VNum (Number (Some v))) entries) in
  (exists r, t_at this path l h = Some (r, <[l := written]> h)) /\
  (<[l := written]> h !! l = Some written) /\
  (forall k, k <> "count" ->
     getProperty k (setProperty "count" (VNum (Number (Some v))) entries) =
     getProperty k entries) /\
  (<[l := written]> h = h <-> exists n, v = VNum n).
Proof.
  intros Hl Hv Hn written.
  assert (Hp : (pluralize path (Named entries)).2 = written).
  { unfold pluralize. rewrite Hv, Hn. reflexivity. }
  repeat split.
  - unfold t_at. rewrite Hl, t_unfold, Hp. eauto.
  - apply lookup_insert_eq.
  - intros k Hk. by apply getProperty_setProperty_other.
  - intros Hh. assert (Hw : h !! l = Some written)
      by (rewrite <- Hh; apply lookup_insert_eq).
    rewrite Hl in Hw. assert (Hs : written = Named entries) by congruence.
    injection Hs as Hs.
    apply setProperty_same in Hs; [| rewrite Hv; eauto].
    rewrite Hv in Hs. injection Hs as ->. eauto.
  - intros [n ->]. apply insert_id. rewrite Hl. subst written.
    do 2 f_equal. symmetry.
    apply setProperty_same; [rewrite Hv; eauto |]. by rewrite Hv.
Qed.

(** *** Positional substitution on plain values *)

Local Arguments Ascii.eqb : simpl never.

Lemma marker_prefix_eqb (c d : ascii) (s : string) :
  Str.startsWith (String c (String d s)) "%s" = Ascii.eqb c "%" && Ascii.eqb d "s".
Proof. cbn [Str.startsWith]. by rewrite andb_true_r. Qed.

Lemma marker_prefix (s : string) :
  Str.startsWith s "%s" = true <-> exists s', s = String "%" (String "s" s').
Proof.
  split.
  - destruct s as [| c [| d s']]; [discriminate | |].
    + simpl. by rewrite andb_false_r.
    + rewrite marker_prefix_eqb.
      intros [->%Ascii.eqb_eq ->%Ascii.eqb_eq]%andb_true_iff. eauto.
  - intros [s' ->]. reflexivity.
Qed.

Lemma cut_String (needle : string) (c : ascii) (s : string) :
  Str.cut needle (String c s) =
    if Str.startsWith (String c s) needle
    then Some ("", Str.drop (String.length needle) (String c s))
    else match Str.cut needle s with
         | Some (before, after) => Some (String c before, after)
         | None => None
         end.
Proof. reflexivity. Qed.

Lemma GetSubstitution_plain (matched before after v : string) :
  Str.mentions "$" v = false -> Str.GetSubstitution matched before after v = v.
Proof.
  induction v as [| c v IH]; [done |]. simpl.
  intros [Hc Hv]%orb_false_iff. rewrite Ascii.eqb_sym, Hc. f_equal. by apply IH.
Qed.

Lemma substitute_in_order_cut (r v : string) (rest : list string) :
  substitute_in_order r (v :: rest) =
    match Str.cut "%s" r with
    | Some (before, after) => before +:+ v +:+ substitute_in_order after rest
    | None => r
    end.
Proof.
  induction r as [| c tl IH]; [done |].
  rewrite cut_String. destruct tl as [| d tl'].
  - simpl. by rewrite andb_false_r.
  - rewrite marker_prefix_eqb.
    change (substitute_in_order (String c (String d tl')) (v :: rest))
      with (if Ascii.eqb c "%" && Ascii.eqb d "s"
            then v +:+ substitute_in_order tl' rest
            else String c (substitute_in_order (String d tl') (v :: rest))).
    destruct (Ascii.eqb c "%" && Ascii.eqb d "s"); [done |].
    rewrite IH. by destruct (Str.cut "%s" (String d tl')) as [[b a] |].
Qed.

Lemma inert_app (q b : string) : inert q = true -> inert b = true -> inert (q +:+ b) = true.
Proof.
  induction q as [| c q IH]; [done |]. rewrite append_String. simpl.
  intros [Hc Hq]%andb_true_iff Hb. apply andb_true_iff. split; [| by apply IH].
  destruct q as [| d q]; [| done].
  rewrite andb_true_r in Hc. apply negb_true_iff in Hc. by rewrite Hc.
Qed.

Lemma inert_plain (v : string) : Str.mentions "%" v = false -> inert v = true.
Proof.
  induction v as [| c v IH]; [done |]. simpl.
  intros [Hc Hv]%orb_false_iff. rewrite Ascii.eqb_sym, Hc. simpl. by apply IH.
Qed.

Lemma cut_inert (q x : string) :
  inert q = true ->
  Str.cut "%s" (q +:+ x) =
    match Str.cut "%s" x with
    | Some (before, after) => Some (q +:+ before, after)
    | None => None
    end.
Proof.
  induction q as [| c q IH]; intros Hq.
  - change ("" +:+ x) with x. destruct (Str.cut "%s" x) as [[b a] |]; reflexivity.
  - simpl in Hq. apply andb_true_iff in Hq as [Hc Hq].
    rewrite append_String, cut_String.
    assert (Hp : Str.startsWith (String c (q +:+ x)) "%s" = false).
    { destruct q as [| d q].
      - rewrite andb_true_r in Hc. apply negb_true_iff in Hc.
        apply not_true_iff_false. intros [s' [= -> _]]%marker_prefix.
        discriminate.
      - rewrite append_String, marker_prefix_eqb. by apply negb_true_iff. }
    rewrite Hp, IH by done. by destruct (Str.cut "%s" x) as [[b a] |].
Qed.

Lemma cut_tidy (r before after : string) :
  no_percent_before_marker r = true ->
  Str.cut "%s" r = Some (before, after) ->
  inert before = true /\ no_percent_before_marker after = true.
Proof.
  revert before. induction r as [| c r IH]; intros before Hr Hcut;
    [discriminate |].
  cbn [no_percent_before_marker] in Hr. apply andb_true_iff in Hr as [Hc Hr].
  rewrite cut_String in Hcut.
  destruct (Str.startsWith (String c r) "%s") eqn:Hp.
  - injection Hcut as <- <-. split; [done |].
    apply marker_prefix in Hp as [s' [= -> ->]].
    cbn [no_percent_before_marker] in Hr.
    by apply andb_true_iff in Hr as [_ Hr].
  - destruct (Str.cut "%s" r) as [[b a] |] eqn:Hcr; [| discriminate].
    injection Hcut as <- <-. destruct (IH b Hr eq_refl) as [Hb Ha].
    split; [| done]. cbn [inert]. rewrite Hb, andb_true_r. apply negb_true_iff.
    destruct (Ascii.eqb c "%") eqn:Ec; [| done].
    destruct r as [| d r]; [discriminate Hcr |].
    rewrite marker_prefix_eqb, Ec in Hp. rewrite cut_String in Hcr.
    destruct (Str.startsWith (String d r) "%s") eqn:Hd; [discriminate Hc |].
    destruct (Str.cut "%s" r) as [[b' a'] |]; [| discriminate].
    injection Hcr as <- <-. exact Hp.
Qed.

(** With plain values and no percent sign before a marker, the loop gives
    every marker of the template its value in order, as the specification
    words it. *)
Lemma replacePositional_in_order_from (values : list string) :
  forall q r,
    inert q = true -> no_percent_before_marker r = true ->
    Forall (fun v => plain v = true) values ->
    replacePositional (Some (q +:+ r)) values =
      Normal (Some (q +:+ substitute_in_order r values)).
Proof.
  induction values as [| v values IH]; intros q r Hq Hr Hv.
  - by destruct r.
  - apply Forall_cons in Hv as [[Hpc Hd]%andb_true_iff Hv].
    apply negb_true_iff in Hpc, Hd.
    simpl. unfold Str.replace.
    rewrite cut_inert, substitute_in_order_cut by done.
    destruct (Str.cut "%s" r) as [[b a] |] eqn:Hcut.
    + destruct (cut_tidy r b a Hr Hcut) as [Hb Ha].
      rewrite GetSubstitution_plain by done.
      rewrite <- !append_assoc. rewrite IH; [done | | done | done].
      rewrite append_assoc. by repeat apply inert_app; [| | apply inert_plain].
    + rewrite IH by done. f_equal. f_equal. f_equal.
      clear -Hcut. destruct values as [| v' values]; [by destruct r |].
      by rewrite substitute_in_order_cut, Hcut.
Qed.

(** From the start of the template: when no value has a percent sign or a
    dollar and no marker has a percent sign right before it, the loop gives
    the markers their values in order, leaves the markers beyond the last
    value and ignores the values beyond the last marker. *)
Lemma replacePositional_in_order (tpl : string) (values : list string) :
  no_percent_before_marker tpl = true ->
  Forall (fun v => plain v = true) values ->
  replacePositional (Some tpl) values =
    Normal (Some (substitute_in_order tpl values)).
Proof. intros. by apply (replacePositional_in_order_from values ""). Qed.

End Rendering.

Section RenderingExamples.

Local Existing Instance integer_host.

(** The examples of the specification and of the test suite. *)
Example t_greeting : (t greeting_en "greeting" (Positional [])).1 = Normal (Some "Hello").
Proof. reflexivity. Qed.

Example t_items :
  (t item_en "item" (Named [("count", VNum (Int 0))])).1 = Normal (Some "No items") /\
  (t item_en "item" (Named [("count", VNum (Int 1))])).1 = Normal (Some "One item") /\
  (t item_en "item" (Named [("count", VNum (Int 3))])).1 = Normal (Some "3 items") /\
  (t item_en "item" (Named [("count", VNum (Int 10))])).1 = Normal (Some "10 items").
Proof. repeat split; vm_compute; reflexivity. Qed.

Example t_pair :
  (t pair_en "pair" (Positional ["Alice"; "Bob"])).1 = Normal (Some "Alice and Bob") /\
  (t pair_en "pair" (Positional ["Alice"])).1 = Normal (Some "Alice and %s").
Proof. repeat split; vm_compute; reflexivity. Qed.

Example named_every_occurrence :
  replacePlaceholders (Some "{{x}}-{{x}}") (Named [("x", VNum (Int 1))]) =
    Normal (Some "1-1").
Proof. vm_compute. reflexivity. Qed.

Example named_null_and_unmatched :
  replacePlaceholders (Some "{{a}} {{b}}") (Named [("a", VNull); ("c", VStr "x")]) =
    Normal (Some "null {{b}}").
Proof. vm_compute. reflexivity. Qed.

(** A name of Object.prototype that is no key of the table: [has] answers
    true, [t] hands the inherited member back when it has no placeholder
    and raises when it has one. *)
Example t_inherited_member :
  has greeting_en "toString" = Normal true /\
  (t greeting_en "toString" (Positional [])).1 = Normal (Inherited "toString") /\
  (t greeting_en "toString" (Positional ["x"])).1 = Throw TypeError /\
  (t greeting_en "farewell" (Positional [])).1 = Normal None.
Proof. repeat split; vm_compute; reflexivity. Qed.

(** C6: each value is put at the first marker of the text as the previous
    replacements left it. A value that holds a marker therefore receives the
    next value, and a dollar pattern in a value is expanded; the markers of
    the template are not served first, second, ... in order. *)
Theorem positional_value_reused :
  (t pair_en "pair" (Positional ["%s"; "Bob"])).1 = Normal (Some "Bob and %s") /\
  substitute_in_order "%s and %s" ["%s"; "Bob"] = "%s and Bob" /\
  (t pair_en "pair" (Positional ["$&"; "Bob"])).1 = Normal (Some "Bob and %s") /\
  substitute_in_order "%s and %s" ["$&"; "Bob"] = "$& and Bob" /\
  (t pair_en "pair" (Positional ["$'"; "Bob"])).1 = Normal (Some " and Bob and %s") /\
  (t pair_en "pair" (Positional ["US$$"; "EUR"])).1 = Normal (Some "US$ and EUR").
Proof. repeat split; vm_compute; reflexivity. Qed.

(** C2 as stated fails: a path that is not in the table, with one
    placeholder, makes [t] raise. *)
Lemma t_absent_path_raises :
  (t greeting_en "farewell" (Positional ["Alice"])).1 = Throw TypeError /\
  ~ returns (t greeting_en "farewell" (Positional ["Alice"])).1.
Proof.
  assert (E : (t greeting_en "farewell" (Positional ["Alice"])).1 = Throw TypeError)
    by (vm_compute; reflexivity).
  split; [exact E |]. rewrite E. intros [a Ha]. discriminate.
Qed.

Lemma t_returns_iff_witness :
  exists s, (t greeting_en "greeting" (Positional ["Alice"])).1 = Normal (Some s).
Proof.
  apply (t_returns_iff "en" {[ "greeting" := "Hello" ]} "greeting"
           (Positional ["Alice"])).
  vm_compute. eauto.
Defined.

(** C7 as stated fails: an infinite count is not a finite number, and the
    path is rewritten all the same. *)
Lemma infinite_count_pluralizes :
  let p := Named [("count", VNum (Infinity false))] in
  (pluralize "item" p).1 = "item.many" /\
  ~ (exists v, count_of p = Some v /\ isFinite (Number (Some v)) = true).
Proof.
  split; [reflexivity |]. intros (v & [= <-] & E). discriminate.
Qed.

Lemma pluralize_iff_witness :
  (pluralize "item" (Named [("count", VStr "21")])).1 = "item.one".
Proof.
  exact (proj1 (proj1 (proj2 (pluralize_iff "item" (Named [("count", VStr "21")])))
                  (VStr "21") eq_refl eq_refl)).
Defined.

(** C8 as stated fails: a count that is a number already is overwritten
    with itself, and the caller's record is what it was. *)
Lemma t_numeric_count_unchanged :
  let h : gmap loc placeholders := {[ 1%positive := Named [("count", VNum (Int 2))] ]} in
  t_at item_en "item" 1%positive h =
    Some (Normal (Some "2 items") : completion rendered, h).
Proof. vm_compute. reflexivity. Qed.

Lemma t_overwrites_count_witness :
  let h : gmap loc placeholders := {[ 1%positive := Named [("count", VStr "2")] ]} in
  exists r, t_at item_en "item" 1%positive h =
              Some (r, <[1%positive := Named [("count", VNum (Int 2))]]> h).
Proof.
  intros h.
  exact (proj1 (t_overwrites_count item_en "item" 1%positive h
                  [("count", VStr "2")] (VStr "2") eq_refl eq_refl eq_refl)).
Defined.

End RenderingExamples.

(** ** Properties of the middleware *)

Section Middleware.

Context {R : Type}.
Implicit Types (this : LanguageController) (ctx : Context).
Implicit Types (next : Context -> LanguageController -> R).

Lemma cache_get_stored (key : string) (c : MemoryCache) :
  (cache_get key c).1 = stored key c.
Proof.
  unfold cache_get, stored. by destruct (entries c !! key).
Qed.

Lemma stored_cache_get (key key' : string) (c : MemoryCache) :
  stored key' (cache_get key c).2 = stored key' c.
Proof.
  unfold cache_get, stored. destruct (entries c !! key) eqn:E; simpl; [done |].
  destruct (decide (key = key')) as [<- | Hne].
  - by rewrite lookup_insert_eq, E.
  - by rewrite lookup_insert_ne.
Qed.

Lemma probe_fallback this ctx next :
  probe this ctx next [] =
    next (bind ctx (mkLanguage (fallbackLanguage this)
                      (stored (fallbackLanguage this) (cache this))))
         (with_cache this (cache_get (fallbackLanguage this) (cache this)).2).
Proof.
  simpl. rewrite <- cache_get_stored.
  by destruct (cache_get (fallbackLanguage this) (cache this)).
Qed.

Lemma probe_binds this ctx next (language : string) (rest : list string) :
  truthy (stored language (cache this)) = true ->
  probe this ctx next (language :: rest) =
    next (bind ctx (mkLanguage language (stored language (cache this))))
         (with_cache this (cache_get language (cache this)).2).
Proof.
  intros Ht. simpl. rewrite <- cache_get_stored in *.
  destruct (cache_get language (cache this)) as [d c]; simpl in *.
  by rewrite Ht.
Qed.

Lemma probe_skips this ctx next (skipped languages : list string) :
  Forall (falsy_in (cache this)) skipped ->
  exists c, probe this ctx next (skipped ++ languages) =
              probe (with_cache this c) ctx next languages /\
            (forall key, stored key c = stored key (cache this)).
Proof.
  revert this. induction skipped as [| language skipped IH]; intros this Hs.
  - exists (cache this). by destruct this as [[] ? ?].
  - apply Forall_cons in Hs as [Hl Hs]. unfold falsy_in in Hl. simpl.
    rewrite <- cache_get_stored in Hl.
    pose proof (fun key => stored_cache_get language key (cache this)) as Hk.
    destruct (cache_get language (cache this)) as [d c]; simpl in *.
    rewrite Hl; simpl.
    destruct (IH (with_cache this c)) as (c' & -> & Hc').
    { simpl. eapply Forall_impl; [exact Hs |].
      intros l. unfold falsy_in. by rewrite Hk. }
    exists c'. split; [done |]. intros key. by rewrite Hc'.
Qed.

(** C3, amended: the candidates for which the store answers null or
    undefined are skipped, and the first one for which it answers an
    object is bound with that object, be it the empty one. *)
Theorem middleware_binds_first_object this ctx next
    (skipped : list string) (language : string) (rest : list string)
    (table : gmap string string) :
  candidates this ctx = skipped ++ language :: rest ->
  Forall (falsy_in (cache this)) skipped ->
  stored language (cache this) = AObj table ->
  exists this',
    middleware this ctx next = next (bind ctx (mkLanguage language (AObj table))) this'.
Proof.
  intros Hc Hs Hl. unfold middleware. rewrite Hc.
  destruct (probe_skips this ctx next skipped (language :: rest) Hs)
    as (c & -> & Hst).
  rewrite probe_binds by (simpl; by rewrite Hst, Hl).
  simpl. rewrite Hst, Hl. eauto.
Qed.

Lemma falsy_or_truthy (c : MemoryCache) (languages : list string) :
  Forall (falsy_in c) languages \/
  exists skipped language rest,
    languages = skipped ++ language :: rest /\
    Forall (falsy_in c) skipped /\ truthy (stored language c) = true.
Proof.
  induction languages as [| l languages IH]; [by left |].
  destruct (truthy (stored l c)) eqn:E.
  - right. exists [], l, languages. by repeat split.
  - destruct IH as [IH | (skipped & language & rest & -> & Hs & Ht)].
    + left. by constructor.
    + right. exists (l :: skipped), language, rest.
      repeat split; [| done]. by constructor.
Qed.

(** C5, amended: whatever the candidates and the store, the middleware
    calls the downstream handlers once, on a context whose [lang] is a
    Language, never null or undefined, made of an identifier and of what the
    store answers for it. It is the first candidate for which the store
    answers something truthy, and the data is then a table; or, when the
    store answers null or undefined for every candidate, the fallback
    language with whatever the store answers for it, a table or not. *)
Theorem middleware_binds_language this ctx next :
  exists (l : Language) this',
    middleware this ctx next = next (bind ctx l) this' /\
    lang (bind ctx l) = Some l /\
    data l = stored (languageCode l) (cache this) /\
    ((exists skipped rest table,
        candidates this ctx = skipped ++ languageCode l :: rest /\
        Forall (falsy_in (cache this)) skipped /\
        data l = AObj table) \/
     (Forall (falsy_in (cache this)) (candidates this ctx) /\
      languageCode l = fallbackLanguage this)).
Proof.
  unfold middleware.
  destruct (falsy_or_truthy (cache this) (candidates this ctx))
    as [Hall | (skipped & language & rest & Hc & Hs & Ht)].
  - destruct (probe_skips this ctx next (candidates this ctx) [])
      as (c & Hp & Hst); [done |].
    rewrite app_nil_r in Hp. rewrite Hp, probe_fallback. simpl.
    eexists _, _. split; [reflexivity |]. simpl. rewrite Hst. auto.
  - rewrite Hc.
    destruct (probe_skips this ctx next skipped (language :: rest) Hs)
      as (c & -> & Hst).
    rewrite probe_binds by (simpl; by rewrite Hst).
    simpl. eexists _, _. split; [reflexivity |]. simpl. rewrite Hst.
    repeat split. left. exists skipped, rest.
    destruct (stored language (cache this)) as [| | table]; try discriminate.
    by exists table.
Qed.

End Middleware.

Section MiddlewareExamples.

(** The two cases of the test suite. *)
Example middleware_fallback_test :
  lang (middleware es_fallback english_user observe).1 =
    Some (mkLanguage "es" (AObj {[ "greeting" := "Hola" ]})).
Proof. vm_compute. reflexivity. Qed.

Example middleware_first_candidate_test :
  let this := with_cache es_fallback
                (cache_set "en" (AObj {[ "greeting" := "Hello" ]}) (cache es_fallback)) in
  lang (middleware this english_user observe).1 =
    Some (mkLanguage "en" (AObj {[ "greeting" := "Hello" ]})) /\
  entries (cache (middleware this english_user observe).2) !! "es" = None.
Proof. split; vm_compute; reflexivity. Qed.

(** C5 as stated fails: when the store answers null for the candidate and
    for the fallback language, the Language bound carries null, not a
    translation table. *)
Lemma middleware_binds_null_data :
  candidates no_data english_user = ["en"] /\
  stored "en" (cache no_data) = ANull /\
  stored "es" (cache no_data) = ANull /\
  lang (middleware no_data english_user observe).1 = Some (mkLanguage "es" ANull) /\
  ~ (exists table, data (mkLanguage "es" ANull) = AObj table).
Proof.
  repeat split; try (vm_compute; reflexivity). intros [table E]. discriminate.
Qed.

(** C3 as stated fails: for "fr" the default loader answers the empty
    object, and the middleware binds "fr" with it although "en", the next
    candidate, has data. *)
Lemma middleware_binds_empty_table :
  candidates fr_then_en english_user = ["fr"; "en"] /\
  stored "fr" (cache fr_then_en) = AObj ∅ /\
  stored "en" (cache fr_then_en) = AObj {[ "greeting" := "Hello" ]} /\
  lang (middleware fr_then_en english_user observe).1 = Some (mkLanguage "fr" (AObj ∅)).
Proof. repeat split; vm_compute; reflexivity. Qed.

Lemma middleware_binds_first_object_witness :
  exists this',
    middleware fr_then_en english_user observe =
      observe (bind english_user (mkLanguage "fr" (AObj ∅))) this'.
Proof.
  apply (middleware_binds_first_object fr_then_en english_user observe
           [] "fr" ["en"] ∅).
  - reflexivity.
  - constructor.
  - reflexivity.
Defined.

End MiddlewareExamples.

(** ** Properties of preloadLanguages *)

Section Preload.

Context `{Host}.

Lemma node_induction (P : node -> Prop) :
  (forall content, P (File content)) ->
  (forall listing, Forall (fun entry => P entry.2) listing -> P (Directory listing)) ->
  P Missing ->
  (forall call e, P (Failing call e)) ->
  forall n, P n.
Proof.
  intros HF HD HM HE. fix IH 1.
  intros [content | listing | | call e]; [apply HF | | apply HM | apply HE].
  apply HD. induction listing as [| [file child] listing IHl]; constructor;
    [apply IH | apply IHl].
Qed.

Lemma preload_directory (path : string) (listing : list (string * node)) (c : MemoryCache) :
  preload path (Directory listing) c =
    forEach (fun entry c => preload (path +:+ "/" +:+ entry.1) entry.2 c) listing c.
Proof. reflexivity. Qed.

Lemma forEach_cons {A S : Type} (f : A -> S -> completion unit * S)
    (item : A) (rest : list A) (s : S) :
  forEach f (item :: rest) s =
    match f item s with
    | (Normal _, s') => forEach f rest s'
    | (Throw e, s') => (Throw e, s')
    end.
Proof. reflexivity. Qed.

Lemma preloaded_from_entry path listing file child c k :
  (file, child) ∈ listing ->
  preloaded (path +:+ "/" +:+ file) child c k ->
  preloaded path (Directory listing) c k.
Proof.
  intros Hin (content & v & Hr & He & Hp & Hk).
  exists content, v. repeat split; try done. by eapply reaches_entry.
Qed.

Lemma preloaded_same_entry path n c c' k :
  entries c' !! k = entries c !! k -> preloaded path n c k -> preloaded path n c' k.
Proof.
  intros E (content & v & Hr & He & Hp & Hk).
  exists content, v. repeat split; try done. by rewrite E.
Qed.

Lemma kept_refl path n c : kept_or_preloaded path n c c.
Proof. split; auto. Qed.

Lemma kept_trans path n c c1 c2 :
  kept_or_preloaded path n c c1 -> kept_or_preloaded path n c1 c2 ->
  kept_or_preloaded path n c c2.
Proof.
  intros [Hl1 Hk1] [Hl2 Hk2]. split; [congruence |]. intros k.
  destruct (Hk2 k) as [E2 | P2]; [| by right].
  destruct (Hk1 k) as [E1 | P1]; [left; congruence |].
  right. by eapply preloaded_same_entry.
Qed.

Lemma kept_from_entry path listing file child c c' :
  (file, child) ∈ listing ->
  kept_or_preloaded (path +:+ "/" +:+ file) child c c' ->
  kept_or_preloaded path (Directory listing) c c'.
Proof.
  intros Hin [Hl Hk]. split; [done |]. intros k.
  destruct (Hk k); [by left | right]. by eapply preloaded_from_entry.
Qed.

Local Abbreviation walk path :=
  (forEach (fun entry c => preload (path +:+ "/" +:+ entry.1) entry.2 c)).

Lemma walk_kept path listing (todo : list (string * node)) (c : MemoryCache) :
  (forall e, e ∈ todo -> e ∈ listing) ->
  Forall (fun entry => forall path c,
            kept_or_preloaded path entry.2 c (preload path entry.2 c).2) todo ->
  kept_or_preloaded path (Directory listing) c (walk path todo c).2.
Proof.
  revert c. induction todo as [| [file child] todo IHt]; intros c Hsub IH;
    [apply kept_refl |].
  apply Forall_cons in IH as [IHc IH]. rewrite forEach_cons.
  specialize (IHc (path +:+ "/" +:+ file) c). simpl in IHc |- *.
  apply (kept_from_entry path listing) in IHc;
    [| apply Hsub, list_elem_of_here].
  destruct (preload (path +:+ "/" +:+ file) child c) as [[[] | e] c1];
    simpl in *; [| done].
  eapply kept_trans; [exact IHc |].
  apply IHt; [| done]. intros e He. by apply Hsub, list_elem_of_further.
Qed.

Lemma preload_kept (n : node) :
  forall path c, kept_or_preloaded path n c (preload path n c).2.
Proof.
  induction n as [content | listing IH | | call e] using node_induction;
    intros path c.
  - simpl. destruct (Str.endsWith path ".json") eqn:He; [| apply kept_refl].
    destruct (JSON_parse content) as [v | e] eqn:Hp; [| apply kept_refl].
    split; [done |]. intros k. simpl. destruct (decide (path = k)) as [<- | Hne].
    + right. exists content, v. simpl. rewrite lookup_insert_eq.
      repeat split; try done. constructor.
    + left. by rewrite lookup_insert_ne.
  - rewrite preload_directory. by apply walk_kept.
  - apply kept_refl.
  - destruct call; simpl; try apply kept_refl.
    destruct (Str.endsWith path ".json"); apply kept_refl.
Qed.

Lemma walk_complete path listing (todo : list (string * node)) (c : MemoryCache)
    (file : string) (child : node) (k content : string) :
  (forall e, e ∈ todo -> e ∈ listing) ->
  Forall (fun entry => forall path c k content,
            (preload path entry.2 c).1 = Normal tt ->
            reaches path entry.2 k (File content) -> Str.endsWith k ".json" = true ->
            preloaded path entry.2 (preload path entry.2 c).2 k) todo ->
  (walk path todo c).1 = Normal tt ->
  (file, child) ∈ todo ->
  reaches (path +:+ "/" +:+ file) child k (File content) ->
  Str.endsWith k ".json" = true ->
  preloaded path (Directory listing) (walk path todo c).2 k.
Proof.
  revert c. induction todo as [| [f0 ch0] todo IHt];
    intros c Hsub IH Hok Hin Hr He; [by apply elem_of_nil in Hin |].
  apply Forall_cons in IH as [IHc IH]. rewrite forEach_cons in *.
  specialize (IHc (path +:+ "/" +:+ f0) c k content). simpl in IHc, Hok |- *.
  destruct (preload (path +:+ "/" +:+ f0) ch0 c) as [[[] | e] c1];
    simpl in *; [| discriminate].
  assert (Hsub' : forall e, e ∈ todo -> e ∈ listing)
    by (intros e He'; by apply Hsub, list_elem_of_further).
  apply elem_of_cons in Hin as [[= <- <-] | Hin]; [| by apply IHt].
  specialize (IHc eq_refl Hr He).
  apply (preloaded_from_entry path listing) in IHc;
    [| apply Hsub, list_elem_of_here].
  destruct (walk_kept path listing todo c1 Hsub') as [_ Hrest].
  { apply Forall_forall. intros entry _ path' c'. apply preload_kept. }
  destruct (Hrest k) as [E | P]; [| done].
  by eapply preloaded_same_entry.
Qed.

(** When no exception ends the walk, every language file it reaches has its
    path as a key. *)
Lemma preload_complete (n : node) :
  forall path c k content,
    (preload path n c).1 = Normal tt ->
    reaches path n k (File content) -> Str.endsWith k ".json" = true ->
    preloaded path n (preload path n c).2 k.
Proof.
  induction n as [content0 | listing IH | | call e] using node_induction;
    intros path c k content Hok Hr He.
  - inversion Hr; subst. simpl in *. rewrite He in *.
    destruct (JSON_parse content) as [v | e] eqn:Hp; [| discriminate].
    exists content, v. simpl. rewrite lookup_insert_eq. by repeat split.
  - inversion Hr as [| ? ? file child ? ? Hin Hr']; subst.
    rewrite preload_directory in *. by eapply walk_complete.
  - inversion Hr.
  - inversion Hr.
Qed.

Lemma stored_kept path n c c' k :
  kept_or_preloaded path n c c' -> entries c' !! k = entries c !! k ->
  stored k c' = stored k c.
Proof. intros [Hl _] E. unfold stored. by rewrite E, Hl. Qed.

Lemma preloaded_json path n c k : preloaded path n c k -> Str.endsWith k ".json" = true.
Proof. by intros (? & ? & ? & ? & ?). Qed.

Lemma steps_directory (path : string) (listing : list (string * node)) :
  steps path (Directory listing) =
    concat (map (fun entry => steps (path +:+ "/" +:+ entry.1) entry.2) listing).
Proof. reflexivity. Qed.

Lemma steps_directory_elem (path : string) (listing : list (string * node)) (x : step) :
  x ∈ steps path (Directory listing) <->
  exists file child, (file, child) ∈ listing /\ x ∈ steps (path +:+ "/" +:+ file) child.
Proof.
  rewrite steps_directory. split.
  - intros Hx. apply list_elem_of_In, in_concat in Hx as (l & Hl & Hx).
    apply in_map_iff in Hl as ([file child] & <- & Hin).
    exists file, child. by split; apply list_elem_of_In.
  - intros (file & child & Hin & Hx). apply list_elem_of_In, in_concat.
    exists (steps (path +:+ "/" +:+ file) child).
    split; [| by apply list_elem_of_In].
    apply in_map_iff. exists (file, child). split; [done |].
    by apply list_elem_of_In.
Qed.

(** A step that parses comes from a language file reached at its key. *)
Lemma steps_reaches (n : node) :
  forall path k content,
    Parse k content ∈ steps path n ->
    reaches path n k (File content) /\ Str.endsWith k ".json" = true.
Proof.
  induction n as [content0 | listing IH | | call e] using node_induction;
    intros path k content Hin.
  - simpl in Hin. destruct (Str.endsWith path ".json") eqn:He;
      [| by apply elem_of_nil in Hin].
    apply list_elem_of_singleton in Hin as [= -> ->]. split; [constructor | done].
  - apply steps_directory_elem in Hin as (file & child & Hl & Hin).
    rewrite Forall_forall in IH.
    destruct (IH (file, child) Hl _ _ _ Hin) as [Hr He].
    split; [| done]. by eapply reaches_entry.
  - by apply elem_of_nil in Hin.
  - destruct call; simpl in Hin;
      try (by apply list_elem_of_singleton in Hin).
    destruct (Str.endsWith path ".json");
      [by apply list_elem_of_singleton in Hin | by apply elem_of_nil in Hin].
Qed.

Lemma run_app (a b : list step) (c : MemoryCache) :
  run (a ++ b) c =
    match run a c with
    | (Normal _, c') => run b c'
    | (Throw e, c') => (Throw e, c')
    end.
Proof.
  revert c. induction a as [| [k content | e] a IH]; intros c; simpl; [done | | done].
  destruct (JSON_parse content); [apply IH | done].
Qed.

(** The walk does the steps, in their order. *)
Lemma preload_run (n : node) : forall path c, preload path n c = run (steps path n) c.
Proof.
  induction n as [content | listing IH | | call e] using node_induction;
    intros path c.
  - simpl. destruct (Str.endsWith path ".json"); [| done]. simpl.
    by destruct (JSON_parse content).
  - rewrite preload_directory, steps_directory. revert c.
    induction IH as [| [file child] todo IHc _ IHt]; intros c; [done |].
    rewrite forEach_cons. cbn [map concat]. rewrite run_app. simpl in IHc |- *.
    rewrite IHc. destruct (run (steps (path +:+ "/" +:+ file) child) c) as [[[] | e] c1];
      [apply IHt | done].
  - done.
  - destruct call; simpl; try done. by destruct (Str.endsWith path ".json").
Qed.

(** After some steps a key is as it was, or holds what one of them
    parsed for it. *)
Lemma run_entries (todo : list step) (c : MemoryCache) (k : string) :
  entries (run todo c).2 !! k = entries c !! k \/
  exists content v, Parse k content ∈ todo /\ JSON_parse content = Normal v /\
                    entries (run todo c).2 !! k = Some v.
Proof.
  revert c. induction todo as [| [k' content | e] todo IH]; intros c; simpl;
    [by left | | by left].
  destruct (JSON_parse content) as [v |] eqn:Hp; [| by left].
  destruct (IH (cache_set k' v c)) as [Hk | (content' & v' & Hin & Hp' & Hk)].
  - destruct (decide (k' = k)) as [-> | Hne].
    + right. exists content, v. split; [apply list_elem_of_here |].
      split; [done |]. rewrite Hk. simpl. apply lookup_insert_eq.
    + left. rewrite Hk. simpl. by apply lookup_insert_ne.
  - right. exists content', v'. split; [by apply list_elem_of_further | done].
Qed.

(** C10: [preloadLanguages] writes the store under the paths of the
    language files it reaches, each as the recursion spelled it (the given
    path, then a slash and the listed name per level). A key that changed
    holds the parse of a file reached at that very path, and a key that
    does not end in ".json" (a language code) is answered as before. After
    a walk without exception every language file reached has its path as a
    key. And whatever happens later in the walk, a language file that is
    parsed, the steps before it having raised nothing, leaves under its
    path the parse of a language file reached at that path: its own
    parse, unless the walk later parses another file under the same path
    (which no file system has). *)
Theorem preloadLanguages_keys (this : LanguageController) (path : string) (n : node) :
  let result := preloadLanguages this path (Some n) in
  (forall k, entries (cache result.2) !! k <> entries (cache this) !! k ->
     preloaded path n (cache result.2) k) /\
  (forall k, Str.endsWith k ".json" = false ->
     entries (cache result.2) !! k = entries (cache this) !! k /\
     stored k (cache result.2) = stored k (cache this)) /\
  (result.1 = Normal tt ->
   forall k content, reaches path n k (File content) ->
     Str.endsWith k ".json" = true -> preloaded path n (cache result.2) k) /\
  (forall before k content later v,
     steps path n = before ++ Parse k content :: later ->
     (run before (cache this)).1 = Normal tt ->
     JSON_parse content = Normal v ->
     reaches path n k (File content) /\
     preloaded path n (cache result.2) k /\
     ((forall content', Parse k content' ∉ later) ->
      entries (cache result.2) !! k = Some v)).
Proof.
  unfold preloadLanguages.
  pose proof (preload_kept n path (cache this)) as Hkept.
  pose proof (preload_complete n path (cache this)) as Hall.
  pose proof (preload_run n path (cache this)) as Hrun.
  destruct (preload path n (cache this)) as [r c] eqn:E; simpl in *.
  assert (Hk : forall k, Str.endsWith k ".json" = false ->
                 entries c !! k = entries (cache this) !! k).
  { intros k Hend. destruct Hkept as [_ Hk]. destruct (Hk k) as [| P]; [done |].
    apply preloaded_json in P. congruence. }
  split; [| split; [| split]].
  - intros k Hne. destruct Hkept as [_ Hk']. by destruct (Hk' k).
  - intros k Hend. split; [by apply Hk |].
    eapply stored_kept; [exact Hkept | by apply Hk].
  - intros -> k content. by apply Hall.
  - intros before k content later v Hsteps Hbefore Hp.
    assert (Hin : forall content', Parse k content' ∈ Parse k content :: later ->
                    reaches path n k (File content') /\
                    Str.endsWith k ".json" = true).
    { intros content' Hin. apply steps_reaches. rewrite Hsteps.
      apply elem_of_app. by right. }
    destruct (Hin content (list_elem_of_here _ _)) as [Hr He].
    rewrite Hsteps, run_app in Hrun.
    destruct (run before (cache this)) as [rb c1]. simpl in Hbefore. subst rb.
    simpl in Hrun. rewrite Hp in Hrun.
    assert (Hc : c = (run later (cache_set k v c1)).2) by (by rewrite <- Hrun).
    destruct (run_entries later (cache_set k v c1) k)
      as [Hsame | (content' & v' & Hl & Hp' & Hv')].
    + assert (Hkv : entries c !! k = Some v).
      { rewrite Hc, Hsame. simpl. apply lookup_insert_eq. }
      split; [done |]. split; [by exists content, v | done].
    + destruct (Hin content' (list_elem_of_further _ _ _ Hl)) as [Hr' _].
      split; [done |]. split; [exists content', v'; by rewrite Hc |].
      intros Hnot. by destruct (Hnot content').
Qed.

End Preload.

Section PreloadExamples.

Local Existing Instance integer_host.

Example preload_locales :
  let result := preloadLanguages empty_controller "locales" (Some locales) in
  result.1 = Normal tt /\
  entries (cache result.2) !! "locales/en.json" = Some (AObj ∅) /\
  entries (cache result.2) !! "locales/extra/ru.json" = Some (AObj ∅) /\
  entries (cache result.2) !! "locales/README.txt" = None /\
  entries (cache result.2) !! "en" = None.
Proof. repeat split; vm_compute; reflexivity. Qed.

(** A language file that cannot be read (a link to a directory, say) ends
    the walk; what was parsed before it stays in the store. *)
Example preload_unreadable :
  let broken :=
    Directory [ ("en.json", File "{}");
                ("fr.json", Failing readFileSync SystemError);
                ("ru.json", File "{}") ] in
  let result := preloadLanguages empty_controller "locales" (Some broken) in
  result.1 = Throw SystemError /\
  entries (cache result.2) !! "locales/en.json" = Some (AObj ∅) /\
  entries (cache result.2) !! "locales/ru.json" = None.
Proof. repeat split; vm_compute; reflexivity. Qed.

Lemma preloadLanguages_keys_witness :
  let result := preloadLanguages empty_controller "locales" (Some locales) in
  entries (cache result.2) !! "locales/en.json" = Some (AObj ∅) /\
  entries (cache result.2) !! "en" = entries (cache empty_controller) !! "en".
Proof.
  intros result.
  destruct (preloadLanguages_keys empty_controller "locales" locales)
    as (_ & Hcode & _ & Hparsed).
  split; [| exact (proj1 (Hcode "en" eq_refl))].
  apply (Hparsed [] "locales/en.json" "{}" [Parse "locales/extra/ru.json" "{}"]);
    try reflexivity.
  intros content' Hin. apply list_elem_of_singleton in Hin. discriminate.
Defined.

End PreloadExamples.

(** ** Further properties of getCountSuffix *)

Section CountSuffixCategories.

(** The integers of each category: zero is 0 alone; one is the positive
    integers ending in 1, 11 excepted; few is the positive integers ending
    in 2, 3 or 4; everything else, the negative integers included, is
    many. *)
Theorem getCountSuffix_categories (n : Z) :
  (getCountSuffix (Int n) = ".zero" <-> n = 0) /\
  (getCountSuffix (Int n) = ".one" <-> 0 < n /\ n <> 11 /\ n mod 10 = 1) /\
  (getCountSuffix (Int n) = ".few" <-> 0 < n /\ 2 <= n mod 10 <= 4) /\
  (getCountSuffix (Int n) = ".many" <->
     n < 0 \/ n = 11 \/ (0 < n /\ (n mod 10 = 0 \/ 5 <= n mod 10))).
Proof.
  rewrite getCountSuffix_Int.
  assert (Hr : (n < 0 /\ Z.rem n 10 <= 0) \/
               (0 <= n /\ Z.rem n 10 = n mod 10 /\ 0 <= n mod 10 < 10)).
  { destruct (Z.lt_ge_cases n 0); [left | right].
    - split; [lia | apply Z.rem_nonpos; lia].
    - repeat split; try lia; [apply Z.rem_mod_nonneg; lia | |];
        apply Z.mod_pos_bound; lia. }
  pose proof (Z.div_mod n 10 ltac:(lia)) as Hdiv.
  generalize dependent (Z.rem n 10). generalize dependent (n mod 10).
  generalize (n / 10). intros q m Hdiv r Hr.
  repeat match goal with
         | |- context [?a =? ?b] => destruct (Z.eqb_spec a b)
         end;
    repeat split; intros; try discriminate; try reflexivity; try lia;
    exfalso; lia.
Qed.

Lemma getCountSuffix_categories_witness : getCountSuffix (Int 101) = ".one".
Proof.
  apply (getCountSuffix_categories 101). split; [lia | split; [lia | reflexivity]].
Defined.

Lemma getCountSuffix_not_integer_witness :
  getCountSuffix (Frac (3 # 2)) = ".many" /\ getCountSuffix (Infinity false) = ".many".
Proof.
  split; apply getCountSuffix_not_integer; intros z; discriminate.
Defined.

End CountSuffixCategories.

(** ** Further properties of the renderer *)

Section RenderingMore.

Context `{Host}.

Lemma join_cons (glue piece : string) (rest : list string) :
  rest <> [] -> Str.join glue (piece :: rest) = piece +:+ glue +:+ Str.join glue rest.
Proof. by destruct rest. Qed.

Lemma cut_empty (separator : string) : separator <> "" -> Str.cut separator "" = None.
Proof. by destruct separator. Qed.

(** [split] then [join] replaces every occurrence of the separator, from
    the left, and does not look again at what it has put in: the text up to
    the first occurrence, the glue, and the same on what follows the
    occurrence. *)
Theorem split_join_unfold (separator glue s : string) :
  separator <> "" ->
  Str.join glue (Str.split separator s) =
    match Str.cut separator s with
    | Some (before, after) =>
        before +:+ glue +:+ Str.join glue (Str.split separator after)
    | None => s
    end.
Proof.
  intros Hne. unfold Str.split at 1.
  destruct (String.length s) as [| n] eqn:Hlen.
  - destruct s; [| discriminate]. by rewrite cut_empty.
  - cbn [Str.split_rounds]. destruct (Str.cut separator s) as [[b a] |] eqn:Hcut;
      [| done].
    pose proof (cut_shorter _ _ _ _ Hne Hcut).
    rewrite split_rounds_split by (done || lia).
    apply join_cons, split_rounds_nonempty.
Qed.

Lemma split_join_unfold_witness :
  Str.join "1" (Str.split "{{x}}" "{{x}}-{{x}}") =
    "" +:+ "1" +:+ Str.join "1" (Str.split "{{x}}" "-{{x}}").
Proof. exact (split_join_unfold "{{x}}" "1" "{{x}}-{{x}}" ltac:(discriminate)). Defined.

(** A template in which no marker of the placeholders occurs is returned as
    it is. *)
Theorem replacePlaceholders_unmatched (d : string) (p : placeholders) :
  unmatched d p -> replacePlaceholders (Some d) p = Normal (Some d).
Proof.
  destruct p as [values | entries]; simpl; intros Hp.
  - induction values as [| v values IH]; [done |].
    simpl. unfold Str.replace. by rewrite Hp.
  - induction entries as [| [k v] entries IH]; [done |].
    apply Forall_cons in Hp as [Hk Hp]. simpl in *.
    rewrite split_join_absent by done. by apply IH.
Qed.

(** A table that has the four plural forms of a path renders that path for
    every count that is a number: the call returns a string. *)
Theorem t_plural_forms (code : string) (table : gmap string string)
    (path : string) (p : placeholders) (v : value) :
  is_Some (table !! (path +:+ ".zero")) -> is_Some (table !! (path +:+ ".one")) ->
  is_Some (table !! (path +:+ ".few")) -> is_Some (table !! (path +:+ ".many")) ->
  count_of p = Some v -> isNaN (Number (Some v)) = false ->
  exists s, (t (mkLanguage code (AObj table)) path p).1 = Normal (Some s).
Proof.
  intros Hz Ho Hf Hm Hv Hn.
  assert (Hpath : (pluralize path p).1 = path +:+ getCountSuffix (Number (Some v)))
    by (by rewrite pluralize_path, Hv, Hn).
  rewrite t_unfold, Hpath. unfold template. cbn [data].
  assert (Hd : is_Some (table !! (path +:+ getCountSuffix (Number (Some v))))).
  { pose proof (getCountSuffix_values (Number (Some v))) as Hs.
    repeat (apply elem_of_cons in Hs as [-> | Hs]; [done |]).
    by apply elem_of_nil in Hs. }
  destruct Hd as [d Hd]. rewrite (lookup_own _ _ _ Hd).
  apply replacePlaceholders_defined.
Qed.

(** [has] and [t] on placeholders without a count that is a number. When
    [has] answers true for a path that is not the name of a member of
    Object.prototype, [t] returns a string for that path. When [has] answers
    false, [t] gives no string: undefined without placeholders, TypeError
    with one. *)
Theorem has_then_t_returns (this : Language) (path : string) (p : placeholders) :
  isNaN (Number (count_of p)) = true ->
  (has this path = Normal true -> inherited path = false ->
     exists s, (t this path p).1 = Normal (Some s)) /\
  (has this path = Normal false ->
     (no_placeholders p -> (t this path p).1 = Normal None) /\
     (~ no_placeholders p -> (t this path p).1 = Throw TypeError)).
Proof.
  intros Hn.
  assert (Hpath : (pluralize path p).1 = path).
  { rewrite pluralize_path. destruct (count_of p) as [v |]; [| done]. by rewrite Hn. }
  rewrite t_unfold, Hpath. unfold has, template.
  destruct (data this) as [| | table]; [by split | by split |].
  split.
  - intros [= Hhas] Hi. rewrite Hi, orb_false_r in Hhas.
    apply bool_decide_eq_true in Hhas as [d Hd]. rewrite (lookup_own _ _ _ Hd).
    apply replacePlaceholders_defined.
  - intros [= Hhas]. apply orb_false_iff in Hhas as [Hown Hi].
    apply bool_decide_eq_false in Hown.
    assert (Hl : lookup table path = None).
    { unfold lookup. rewrite Hi. destruct (table !! path) eqn:Hd; [| done].
      destruct Hown. eauto. }
    rewrite Hl. pose proof (pluralize_no_placeholders path p) as Hno.
    destruct (replacePlaceholders_not_string None (pluralize path p).2) as [Hr Ht];
      [done |].
    split; intros Hp; [apply Hr | apply Ht]; by rewrite Hno.
Qed.

(** What [t] leaves of its placeholders, also when it raises: an array is
    as it was; a record has the same keys in the same order and the same
    value under every key other than [count]; a record whose [count] is
    absent or not a number is as it was. *)
Theorem t_keeps_placeholders (this : Language) (path : string) :
  (forall values, (t this path (Positional values)).2 = Positional values) /\
  (forall entries, exists entries',
     (t this path (Named entries)).2 = Named entries' /\
     entries'.*1 = entries.*1 /\
     forall k, k <> "count" -> getProperty k entries' = getProperty k entries) /\
  (forall entries, isNaN (Number (getProperty "count" entries)) = true ->
     (t this path (Named entries)).2 = Named entries).
Proof.
  split; [| split].
  - intros values. by rewrite t_unfold.
  - intros entries. rewrite t_unfold. simpl.
    destruct (isNaN (Number (getProperty "count" entries))) eqn:Hn; simpl.
    + by exists entries.
    + eexists. split; [reflexivity |]. split.
      * apply setProperty_keys. destruct (getProperty "count" entries); [eauto |].
        discriminate Hn.
      * intros k Hk. by apply getProperty_setProperty_other.
  - intros entries Hn. rewrite t_unfold. simpl. by rewrite Hn.
Qed.

End RenderingMore.

Section RenderingMoreExamples.

Local Existing Instance integer_host.

Lemma replacePlaceholders_unmatched_witness :
  replacePlaceholders (Some "Hello") (Named [("name", VStr "John"); ("age", VNull)]) =
    Normal (Some "Hello").
Proof.
  apply replacePlaceholders_unmatched. repeat constructor.
Defined.

Lemma t_keeps_placeholders_witness :
  (t (mkLanguage "en" ANull) "item" (Named [("name", VStr "John")])).2 =
    Named [("name", VStr "John")].
Proof.
  apply (t_keeps_placeholders (mkLanguage "en" ANull) "item"). reflexivity.
Defined.

Lemma t_plural_forms_witness :
  exists s, (t item_en "item" (Named [("count", VStr "12")])).1 = Normal (Some s).
Proof.
  apply (t_plural_forms "en" _ "item" _ (VStr "12"));
    first [reflexivity | vm_compute; eauto].
Defined.

Lemma has_then_t_returns_witness :
  exists s, (t greeting_en "greeting" (Named [("name", VStr "John")])).1 = Normal (Some s).
Proof.
  apply (has_then_t_returns greeting_en "greeting" (Named [("name", VStr "John")]));
    vm_compute; reflexivity.
Defined.

Lemma replacePositional_in_order_witness :
  replacePositional (Some "%s and %s") ["Alice"; "Bob"] =
    Normal (Some (substitute_in_order "%s and %s" ["Alice"; "Bob"])).
Proof.
  apply replacePositional_in_order; [reflexivity |].
  repeat constructor.
Defined.

End RenderingMoreExamples.

(** ** Further properties of the middleware *)

Section MiddlewareMore.

Context `{Host} {R : Type}.
Implicit Types (this : LanguageController) (ctx : Context).
Implicit Types (next : Context -> LanguageController -> R).

Lemma t_without_table (l : Language) (path : string) (p : placeholders) :
  truthy (data l) = false ->
  (t l path p).1 = Throw TypeError /\ has l path = Throw TypeError.
Proof.
  intros Hd. rewrite t_unfold. unfold template, has.
  by destruct (data l).
Qed.

(** When the store has nothing truthy for any candidate nor for the fallback
    language, the middleware still binds the fallback language, with the
    null or undefined the store answered; on that Language every call of
    [t] and of [has] raises TypeError. *)
Theorem middleware_without_data this ctx next :
  Forall (falsy_in (cache this)) (candidates this ctx) ->
  falsy_in (cache this) (fallbackLanguage this) ->
  exists l this',
    middleware this ctx next = next (bind ctx l) this' /\
    languageCode l = fallbackLanguage this /\
    forall path p, (t l path p).1 = Throw TypeError /\ has l path = Throw TypeError.
Proof.
  intros Hall Hfb. unfold middleware.
  destruct (probe_skips this ctx next (candidates this ctx) [] Hall)
    as (c & Hp & Hst).
  rewrite app_nil_r in Hp. rewrite Hp, probe_fallback. simpl.
  eexists _, _. split; [reflexivity |]. split; [reflexivity |].
  intros path p. apply t_without_table. simpl. by rewrite Hst.
Qed.

Lemma stored_fresh (options : LanguageControllerOptions) (key : string) :
  opt_loader options = None ->
  stored key (cache (newLanguageController options)) = AObj ∅.
Proof.
  intros Hl. unfold stored, newLanguageController. simpl.
  by rewrite lookup_empty, Hl.
Qed.

(** A controller made without a loader answers the empty object for every
    language, so its middleware binds the first candidate with the empty
    table and never reaches the next candidates or the fallback. *)
Theorem middleware_default_loader (options : LanguageControllerOptions) ctx next
    (language : string) (rest : list string) :
  opt_loader options = None ->
  candidates (newLanguageController options) ctx = language :: rest ->
  exists this',
    middleware (newLanguageController options) ctx next =
      next (bind ctx (mkLanguage language (AObj ∅))) this'.
Proof.
  intros Hl Hc. unfold middleware. rewrite Hc.
  rewrite probe_binds by (by rewrite stored_fresh).
  rewrite stored_fresh by done. eauto.
Qed.

(** With the default resolver the middleware binds the language of the user
    when the user has one and the store answers an object for it, and the
    fallback language in every other case; the data is what the store
    answers for the language bound. *)
Theorem middleware_default_resolver this ctx next :
  languageResolver this = defaultLanguageResolver ->
  let chosen :=
    match language_code ctx with
    | Some code =>
        if truthy (stored code (cache this)) then code else fallbackLanguage this
    | None => fallbackLanguage this
    end in
  exists this',
    middleware this ctx next =
      next (bind ctx (mkLanguage chosen (stored chosen (cache this)))) this'.
Proof.
  intros Hres chosen. unfold middleware, candidates. rewrite Hres.
  unfold defaultLanguageResolver.
  set (c0 := default (fallbackLanguage this) (language_code ctx)).
  destruct (truthy (stored c0 (cache this))) eqn:Ht.
  - rewrite probe_binds by done.
    assert (chosen = c0) as ->; [| eauto].
    subst chosen c0. destruct (language_code ctx) as [code |]; simpl in *; [| done].
    by rewrite Ht.
  - destruct (probe_skips this ctx next [c0] []) as (c & Hp & Hst).
    { by constructor. }
    simpl app in Hp. rewrite Hp, probe_fallback. simpl. rewrite Hst.
    assert (chosen = fallbackLanguage this) as ->; [| eauto].
    subst chosen c0. destruct (language_code ctx) as [code |]; simpl in *; [| done].
    by rewrite Ht.
Qed.

End MiddlewareMore.

Section MiddlewareMoreExamples.

Local Existing Instance integer_host.

Lemma middleware_without_data_witness :
  exists l this',
    middleware (with_cache es_fallback
                  (mkCache ∅ (fun _ => ANull))) english_user observe =
      observe (bind english_user l) this' /\
    languageCode l = "es" /\
    forall path p, (t l path p).1 = Throw TypeError /\ has l path = Throw TypeError.
Proof.
  apply (middleware_without_data
           (with_cache es_fallback (mkCache ∅ (fun _ => ANull))) english_user observe).
  - repeat constructor.
  - reflexivity.
Defined.

Lemma middleware_default_loader_witness :
  exists this',
    middleware empty_controller english_user observe =
      observe (bind english_user (mkLanguage "en" (AObj ∅))) this'.
Proof.
  apply (middleware_default_loader _ english_user observe "en" []); reflexivity.
Defined.

Lemma middleware_default_resolver_witness :
  exists this',
    middleware es_fallback english_user observe =
      observe (bind english_user
                 (mkLanguage "es" (AObj {[ "greeting" := "Hola" ]}))) this'.
Proof.
  exact (middleware_default_resolver es_fallback english_user observe eq_refl).
Defined.

End MiddlewareMoreExamples.

(** ** Further properties of preloadLanguages *)

Section PreloadMore.

Context `{Host}.

Local Abbreviation walk path :=
  (forEach (fun entry c => preload (path +:+ "/" +:+ entry.1) entry.2 c)).

Lemma append_empty_r (s : string) : s +:+ "" = s.
Proof. induction s as [| c s IH]; [done |]. rewrite append_String. by f_equal. Qed.

Lemma drop_append (p s : string) : Str.drop (String.length p) (p +:+ s) = s.
Proof. induction p as [| c p IH]; [by destruct s |]. by rewrite append_String. Qed.

Lemma drop_rest (n : nat) (s : string) : exists p, s = p +:+ Str.drop n s.
Proof.
  revert s. induction n as [| n IH]; intros s; [by exists "" |].
  destruct s as [| c s]; [by exists "" |].
  destruct (IH s) as [p Hp]. exists (String c p).
  rewrite append_String. cbn [Str.drop]. by f_equal.
Qed.

(** [endsWith] answers true exactly for the strings made of something
    followed by the suffix. *)
Theorem endsWith_spec (s suffix : string) :
  Str.endsWith s suffix = true <-> exists p, s = p +:+ suffix.
Proof.
  unfold Str.endsWith. split.
  - intros [_ Heq%String.eqb_eq]%andb_true_iff.
    destruct (drop_rest (String.length s - String.length suffix) s) as [p Hp].
    exists p. by rewrite <- Heq.
  - intros [p ->]. rewrite length_append. apply andb_true_iff. split.
    + apply Nat.leb_le. lia.
    + replace (String.length p + String.length suffix - String.length suffix)%nat
        with (String.length p) by lia.
      rewrite drop_append. apply String.eqb_refl.
Qed.

Lemma endsWith_spec_witness : Str.endsWith "locales/en.json" ".json" = true.
Proof. apply endsWith_spec. by exists "locales/en". Defined.

Lemma reaches_below (path : string) (n : node) (k : string) (m : node) :
  reaches path n k m -> exists rest, k = path +:+ rest.
Proof.
  induction 1 as [path n | path listing file child k m Hin Hr [rest ->]].
  - exists "". by rewrite append_empty_r.
  - exists (("/" +:+ file) +:+ rest). by rewrite !append_assoc.
Qed.

(** The preload writes below the path it is given and removes nothing: a
    key whose entry changes begins with that path, and a key that had an
    entry still has one. *)
Theorem preloadLanguages_below (this : LanguageController) (path : string)
    (target : option node) (k : string) :
  let this' := (preloadLanguages this path target).2 in
  (entries (cache this') !! k <> entries (cache this) !! k ->
     exists rest, k = path +:+ rest) /\
  (is_Some (entries (cache this) !! k) -> is_Some (entries (cache this') !! k)).
Proof.
  unfold preloadLanguages. destruct target as [n |]; simpl; [| by split].
  pose proof (preload_kept n path (cache this)) as [_ Hk].
  destruct (preload path n (cache this)) as [r c]; simpl in *.
  destruct (Hk k) as [-> | (content & v & Hr & _ & _ & Hv)]; [by split |].
  split; [| by rewrite Hv; eauto].
  intros _. by eapply reaches_below.
Qed.

Lemma reaches_steps (path : string) (n : node) (k : string) (m : node) :
  reaches path n k m ->
  (forall content, m = File content -> Str.endsWith k ".json" = true ->
     Parse k content ∈ steps path n) /\
  (forall call e, m = Failing call e ->
     (call = readFileSync -> Str.endsWith k ".json" = true) ->
     Raise e ∈ steps path n).
Proof.
  induction 1 as [path n | path listing file child k m Hin Hr [IHf IHe]].
  - split.
    + intros content -> He. simpl. rewrite He. apply list_elem_of_here.
    + intros call e -> He. destruct call; simpl; try apply list_elem_of_here.
      rewrite He by done. apply list_elem_of_here.
  - split.
    + intros content Hm He. apply steps_directory_elem. eauto.
    + intros call e Hm He. apply steps_directory_elem. eauto.
Qed.

Lemma steps_raise (n : node) :
  forall path e,
    Raise e ∈ steps path n ->
    exists k call, reaches path n k (Failing call e) /\
                   (call = readFileSync -> Str.endsWith k ".json" = true).
Proof.
  induction n as [content0 | listing IH | | call e0] using node_induction;
    intros path e Hin.
  - simpl in Hin. destruct (Str.endsWith path ".json");
      [by apply list_elem_of_singleton in Hin | by apply elem_of_nil in Hin].
  - apply steps_directory_elem in Hin as (file & child & Hl & Hin).
    rewrite Forall_forall in IH.
    destruct (IH (file, child) Hl _ _ Hin) as (k & call & Hr & He).
    exists k, call. split; [by eapply reaches_entry | done].
  - by apply elem_of_nil in Hin.
  - exists path, call. destruct call; simpl in Hin.
    + apply list_elem_of_singleton in Hin as [= ->]. split; [constructor | done].
    + apply list_elem_of_singleton in Hin as [= ->]. split; [constructor | done].
    + destruct (Str.endsWith path ".json") eqn:He;
        [| by apply elem_of_nil in Hin].
      apply list_elem_of_singleton in Hin as [= ->]. split; [constructor | done].
Qed.

Lemma run_outcome (todo : list step) (c : MemoryCache) :
  ((run todo c).1 = Normal tt ->
   forall x, x ∈ todo ->
     exists k content v, x = Parse k content /\ JSON_parse content = Normal v) /\
  (forall e, (run todo c).1 = Throw e ->
     Raise e ∈ todo \/
     exists k content, Parse k content ∈ todo /\ JSON_parse content = Throw e).
Proof.
  revert c. induction todo as [| [k content | e0] todo IH]; intros c; simpl.
  - split; [intros _ x Hx; by apply elem_of_nil in Hx | discriminate].
  - destruct (JSON_parse content) as [v | e0] eqn:Hp.
    + destruct (IH (cache_set k v c)) as [Hok Herr]. split.
      * intros Hn x [-> | Hx]%elem_of_cons; [eauto | by apply Hok].
      * intros e He. destruct (Herr e He) as [Hr | (k' & content' & Hin & Hp')].
        -- left. by apply list_elem_of_further.
        -- right. exists k', content'. split; [by apply list_elem_of_further | done].
    + split; [discriminate |]. intros e [= <-]. right.
      exists k, content. split; [apply list_elem_of_here | done].
  - split; [discriminate |]. intros e [= <-]. left. apply list_elem_of_here.
Qed.

(** A preload swallows no error. When it returns, every language file it
    reaches parsed, and nothing it reached made a call to the file system
    raise, apart from unreadable files that are not language files, which it
    does not read. When it raises, it raises what [JSON.parse] raised on a
    language file it reached, or what a call to the file system raised on
    something it reached. *)
Theorem preloadLanguages_outcome (this : LanguageController) (path : string) (n : node) :
  let result := preloadLanguages this path (Some n) in
  (result.1 = Normal tt ->
   forall k,
     (forall content, reaches path n k (File content) ->
        Str.endsWith k ".json" = true -> exists v, JSON_parse content = Normal v) /\
     (forall call e, reaches path n k (Failing call e) ->
        call = readFileSync /\ Str.endsWith k ".json" = false)) /\
  (forall e, result.1 = Throw e ->
     exists k m, reaches path n k m /\
       ((exists content, m = File content /\ Str.endsWith k ".json" = true /\
                         JSON_parse content = Throw e) \/
        (exists call, m = Failing call e /\
                      (call = readFileSync -> Str.endsWith k ".json" = true)))).
Proof.
  unfold preloadLanguages.
  pose proof (preload_run n path (cache this)) as Hrun.
  destruct (run_outcome (steps path n) (cache this)) as [Hok Herr].
  rewrite <- Hrun in Hok, Herr.
  destruct (preload path n (cache this)) as [r c]. simpl in *. split.
  - intros Hn k. specialize (Hok Hn). split.
    + intros content Hr He.
      destruct (Hok (Parse k content)) as (k' & content' & v & [= -> ->] & Hp);
        [| eauto].
      by eapply reaches_steps.
    + intros call e Hr.
      assert (Hnot : ~ (call = readFileSync -> Str.endsWith k ".json" = true)).
      { intros He. destruct (Hok (Raise e)) as (? & ? & ? & [=] & _).
        by eapply reaches_steps. }
      destruct call; try (destruct Hnot; discriminate).
      split; [done |]. destruct (Str.endsWith k ".json"); [by destruct Hnot | done].
  - intros e He. destruct (Herr e He) as [Hr | (k & content & Hin & Hp)].
    + destruct (steps_raise n path e Hr) as (k & call & Hreach & Hext).
      exists k, (Failing call e). split; [done |]. right. eauto.
    + destruct (steps_reaches n path k content Hin) as [Hreach Hext].
      exists k, (File content). split; [done |]. left. eauto.
Qed.

(** A controller made without a loader does not serve what it preloads
    under a language code: whatever was preloaded, for a first candidate
    that does not end in ".json" the middleware binds the empty table, on
    which [t] raises TypeError as soon as it is given a placeholder. *)
Theorem preloaded_tables_not_served {R : Type} (options : LanguageControllerOptions)
    (path : string) (target : option node) (ctx : Context)
    (next : Context -> LanguageController -> R)
    (language : string) (rest : list string) :
  opt_loader options = None ->
  let this := (preloadLanguages (newLanguageController options) path target).2 in
  candidates this ctx = language :: rest ->
  Str.endsWith language ".json" = false ->
  (exists this',
     middleware this ctx next = next (bind ctx (mkLanguage language (AObj ∅))) this') /\
  (forall path' p, ~ no_placeholders p ->
     (t (mkLanguage language (AObj ∅)) path' p).1 = Throw TypeError).
Proof.
  intros Hl this Hc Hend. split.
  - assert (Hst : stored language (cache this) = AObj ∅).
    { subst this. unfold preloadLanguages.
      destruct target as [n |]; [| by apply stored_fresh].
      pose proof (preload_kept n path (cache (newLanguageController options)))
        as Hkept.
      destruct (preload path n (cache (newLanguageController options))) as [r c].
      change (kept_or_preloaded path n (cache (newLanguageController options)) c)
        in Hkept.
      change (stored language c = AObj ∅).
      rewrite <- (stored_fresh options language Hl).
      eapply stored_kept; [exact Hkept |].
      destruct Hkept as [_ Hk]. destruct (Hk language) as [| P]; [done |].
      apply preloaded_json in P. congruence. }
    unfold middleware. rewrite Hc, probe_binds by (by rewrite Hst).
    rewrite Hst. eauto.
  - intros path' p Hp. rewrite t_unfold. unfold template. cbn [data].
    apply replacePlaceholders_not_string;
      [by apply lookup_not_own, lookup_empty | by rewrite pluralize_no_placeholders].
Qed.

End PreloadMore.

Section PreloadMoreExamples.

Local Existing Instance integer_host.

Lemma preloadLanguages_below_witness :
  is_Some (entries (cache (preloadLanguages fr_then_en "locales" (Some locales)).2) !! "en").
Proof.
  apply (preloadLanguages_below fr_then_en "locales" (Some locales) "en").
  vm_compute. eauto.
Defined.

Lemma preloadLanguages_outcome_witness :
  exists v, JSON_parse "{}" = Normal v.
Proof.
  destruct (proj1 (@preloadLanguages_outcome integer_host
                     empty_controller "locales" locales)
              ltac:(vm_compute; reflexivity) "locales/extra/ru.json") as [Hfile _].
  apply (Hfile "{}").
  - apply (reaches_entry "locales" _ "extra" (Directory [("ru.json", File "{}")])).
    + do 2 apply list_elem_of_further. apply list_elem_of_here.
    + apply (reaches_entry _ _ "ru.json" (File "{}")); [apply list_elem_of_here |].
      exact (reaches_here "locales/extra/ru.json" (File "{}")).
  - reflexivity.
Defined.

Lemma preloaded_tables_not_served_witness :
  exists this',
    middleware (preloadLanguages empty_controller "locales" (Some locales)).2
        english_user observe =
      observe (bind english_user (mkLanguage "en" (AObj ∅))) this'.
Proof.
  apply (preloaded_tables_not_served
           {| opt_loader := None; opt_languageResolver := None;
              opt_fallbackLanguage := None |}
           "locales" (Some locales) english_user observe "en" []); reflexivity.
Defined.

End PreloadMoreExamples.
